(** * Supply Chain dashboard: the aggregation layer of [app.py]

    A shallow embedding of the data-handling part of the dashboard script
    (the pandas calls of [app.py]) and the proofs of the properties its
    specification states about it.

    Modelling conventions.
    - A cell that pandas reads as NaN / NaT is [None]; a present cell is
      [Some v].
    - Numeric cells are integers and their sums are taken exactly. pandas
      adds in the type of the column instead: int64 wraps around modulo
      2^64, float64 rounds and then depends on the order of the additions.
      What is proved below about a sum is therefore only what holds in every
      one of these types: which rows are added, in which order, and that
      adding nothing gives 0. The value of a total is not compared with
      another way of adding the same numbers.
    - Text cells are byte strings; the file is decoded as ISO-8859-1, so one
      byte is one code point and Python's string order is the byte-wise
      lexicographic order.
    - Only the columns the script reads are part of [Row]. *)

From Stdlib Require Import List ZArith QArith Bool String Ascii Lia.
From Stdlib Require Import Permutation Sorted.
Import ListNotations.
Open Scope Z_scope.

(** ** Data model *)

(** A pandas [Timestamp], by its calendar fields. *)
Record Timestamp := mkTimestamp {
  ts_year : Z; ts_month : Z; ts_day : Z;
  ts_hour : Z; ts_minute : Z; ts_second : Z }.

(** One row of [Supply Chain Data.csv] (a Record of the specification),
    restricted to the columns read by the script. *)
Record Row := mkRow {
  Order_Id : option Z;
  Customer_Id : option Z;
  Sales : option Z;
  Order_Profit_Per_Order : option Z;
  Sales_per_customer : option Z;
  Days_for_shipping_real : option Z;
  Days_for_shipment_scheduled : option Z;
  Late_delivery_risk : option Z;
  Order_Status : option string;
  Shipping_Mode : option string;
  Customer_Segment : option string;
  Customer_Country : option string;
  Customer_City : option string;
  Category_Name : option string;
  Product_Name : option string;
  order_date_DateOrders : option string }.

(** Column names, by kind: [df['Sales']] is [column_num FSales df]. *)
Inductive NumField :=
| FOrderId | FCustomerId | FSales | FOrderProfitPerOrder | FSalesPerCustomer
| FDaysReal | FDaysScheduled | FLateDeliveryRisk.

Inductive CatField :=
| FOrderStatus | FShippingMode | FCustomerSegment | FCustomerCountry
| FCustomerCity | FCategoryName | FProductName.

Definition get_num (f : NumField) (r : Row) : option Z :=
  match f with
  | FOrderId => Order_Id r
  | FCustomerId => Customer_Id r
  | FSales => Sales r
  | FOrderProfitPerOrder => Order_Profit_Per_Order r
  | FSalesPerCustomer => Sales_per_customer r
  | FDaysReal => Days_for_shipping_real r
  | FDaysScheduled => Days_for_shipment_scheduled r
  | FLateDeliveryRisk => Late_delivery_risk r
  end.

Definition get_cat (f : CatField) (r : Row) : option string :=
  match f with
  | FOrderStatus => Order_Status r
  | FShippingMode => Shipping_Mode r
  | FCustomerSegment => Customer_Segment r
  | FCustomerCountry => Customer_Country r
  | FCustomerCity => Customer_City r
  | FCategoryName => Category_Name r
  | FProductName => Product_Name r
  end.

Definition Dataset := list Row.

Definition column_num (f : NumField) (d : Dataset) : list (option Z) :=
  map (get_num f) d.

Definition column_cat (f : CatField) (d : Dataset) : list (option string) :=
  map (get_cat f) d.

(** The global [df]: the rows read from the file and, once line 65 has run,
    the extra column [order_date] (aligned with the rows). *)
Record DataFrame := mkDataFrame {
  df_rows : Dataset;
  df_order_date : option (list (option Timestamp)) }.

Definition csv_columns : list string :=
  [ "Order Id"; "Customer Id"; "Sales"; "Order Profit Per Order";
    "Sales per customer"; "Days for shipping (real)";
    "Days for shipment (scheduled)"; "Late_delivery_risk"; "Order Status";
    "Shipping Mode"; "Customer Segment"; "Customer Country"; "Customer City";
    "Category Name"; "Product Name"; "order date (DateOrders)" ]%string.

(** [df.columns] *)
Definition df_columns (df : DataFrame) : list string :=
  match df_order_date df with
  | None => csv_columns
  | Some _ => csv_columns ++ ["order_date"%string]
  end.

(** [pd.read_csv]: the frame as loaded has the columns of the file only. *)
Definition read_csv (d : Dataset) : DataFrame := mkDataFrame d None.

(** ** Series reductions *)

(** [Series.sum()], with pandas' defaults [skipna=True, min_count=0]: NaN
    cells are skipped while accumulating, and the sum of no cell is 0. The
    additions are exact here; see the conventions at the top. *)
Definition Series_sum (s : list (option Z)) : Z :=
  fold_left (fun acc c => match c with Some v => acc + v | None => acc end) s 0.

(** [notna()] on one cell. *)
Definition is_some {A : Type} (o : option A) : bool :=
  match o with Some _ => true | None => false end.

(** [Series.count()]: the number of non-NaN cells. *)
Definition Series_count {A : Type} (s : list (option A)) : nat :=
  List.length (filter is_some s).

(** [Series.mean()]: sum / count over the non-NaN cells, NaN on none. The
    quotient is exact here, where pandas returns its float64 rounding; only
    whether it is NaN is used below. *)
Definition Series_mean (s : list (option Z)) : option Q :=
  match Series_count s with
  | O => None
  | S n => Some (Qmake (Series_sum s) (Pos.of_succ_nat n))
  end.

Definition opt_eqb {A : Type} (eqb : A -> A -> bool) (a b : option A) : bool :=
  match a, b with
  | Some x, Some y => eqb x y
  | None, None => true
  | _, _ => false
  end.

(** [Series.unique()]: the distinct values in order of first appearance;
    NaN is kept (once) when the column has a NaN cell. *)
Fixpoint unique_from {A : Type} (eqb : A -> A -> bool) (seen : list A)
  (s : list A) : list A :=
  match s with
  | [] => []
  | x :: t =>
      if existsb (eqb x) seen then unique_from eqb seen t
      else x :: unique_from eqb (x :: seen) t
  end.

Definition unique {A : Type} (eqb : A -> A -> bool) (s : list A) : list A :=
  unique_from eqb [] s.

Definition Series_unique (s : list (option string)) : list (option string) :=
  unique (opt_eqb String.eqb) s.

Fixpoint dropna {A : Type} (s : list (option A)) : list A :=
  match s with
  | [] => []
  | Some v :: t => v :: dropna t
  | None :: t => dropna t
  end.

(** [Series.nunique()], default [dropna=True]: NaN is not counted. *)
Definition Series_nunique (s : list (option Z)) : nat :=
  List.length (unique Z.eqb (dropna s)).

(** ** Boolean indexing *)

(** [series == v], elementwise: a NaN cell is equal to nothing, and nothing
    is equal to a NaN [v]. No conversion takes place. *)
Definition cell_eq (c v : option string) : bool :=
  match c, v with
  | Some a, Some b => String.eqb a b
  | _, _ => false
  end.

Definition Series_eq (s : list (option string)) (v : option string) : list bool :=
  map (fun c => cell_eq c v) s.

(** [df[mask]]: the rows at which the mask is [True], in order. *)
Fixpoint boolean_index {A : Type} (mask : list bool) (rows : list A) : list A :=
  match mask, rows with
  | b :: m, r :: t => if b then r :: boolean_index m t else boolean_index m t
  | _, _ => []
  end.

(** [df[df[field] == v]] *)
Definition filterByValue (d : Dataset) (field : CatField) (v : option string)
  : Dataset :=
  boolean_index (Series_eq (column_cat field d) v) d.

(** [df[mask]] on a frame: a new frame, every column indexed by the mask. *)
Definition df_getitem (mask : list bool) (df : DataFrame) : DataFrame :=
  mkDataFrame (boolean_index mask (df_rows df))
              (option_map (boolean_index mask) (df_order_date df)).

(** [df[df[field] == v]] on a frame. *)
Definition df_filterByValue (df : DataFrame) (field : CatField)
  (v : option string) : DataFrame :=
  df_getitem (Series_eq (column_cat field (df_rows df)) v) df.

(** ** Group keys and their order *)

(** Group keys are sorted ([groupby(..., sort=True)] is the default), so a
    key type comes with a three-way comparison. *)
Class Ord (K : Type) := { cmp : K -> K -> comparison }.

Class OrdLaws (K : Type) `{Ord K} := {
  cmp_eq : forall a b, cmp a b = Eq -> a = b;
  cmp_refl : forall a, cmp a a = Eq;
  cmp_antisym : forall a b, cmp b a = CompOpp (cmp a b);
  cmp_trans : forall a b c, cmp a b = Lt -> cmp b c = Lt -> cmp a c = Lt }.

Definition key_eqb {K : Type} `{Ord K} (a b : K) : bool :=
  match cmp a b with Eq => true | _ => false end.

Definition key_lt {K : Type} `{Ord K} (a b : K) : Prop := cmp a b = Lt.

(** Tuples of key values compare lexicographically. *)
Fixpoint list_cmp {A : Type} (c : A -> A -> comparison) (x y : list A)
  : comparison :=
  match x, y with
  | [], [] => Eq
  | [], _ :: _ => Lt
  | _ :: _, [] => Gt
  | a :: x', b :: y' =>
      match c a b with
      | Eq => list_cmp c x' y'
      | o => o
      end
  end.

#[export] Instance Ord_Z : Ord Z := {| cmp := Z.compare |}.
#[export] Instance Ord_string : Ord string := {| cmp := String.compare |}.
#[export] Instance Ord_list {A : Type} `{Ord A} : Ord (list A) :=
  {| cmp := list_cmp cmp |}.

(** ** groupby *)

(** Insertion of a key into the sorted list of keys. *)
Fixpoint insert_key {K : Type} `{Ord K} (k : K) (ks : list K) : list K :=
  match ks with
  | [] => [k]
  | k' :: t =>
      match cmp k k' with
      | Gt => k' :: insert_key k t
      | _ => k :: ks
      end
  end.

Definition sort_keys {K : Type} `{Ord K} (ks : list K) : list K :=
  fold_right insert_key [] ks.

Definition has_key {K R : Type} `{Ord K} (key : R -> option K) (k : K) (r : R)
  : bool :=
  match key r with
  | Some k' => key_eqb k' k
  | None => false
  end.

(** [rows.groupby(key)] with pandas' defaults [sort=True, dropna=True]: the
    keys of the rows are factorized (distinct values, a row whose key is NaN
    gets no group), the distinct keys are sorted, and each group holds its
    rows in their original order. *)
Definition group_keys {K R : Type} `{Ord K} (key : R -> option K)
  (rows : list R) : list K :=
  sort_keys (unique key_eqb (dropna (map key rows))).

Definition groupby {K R : Type} `{Ord K} (key : R -> option K) (rows : list R)
  : list (K * list R) :=
  map (fun k => (k, filter (has_key key k) rows)) (group_keys key rows).

(** The key of a row for [groupby([f1, ..., fn])]: the tuple of its values,
    NaN as soon as one of them is NaN. *)
Fixpoint row_key (K : list CatField) (r : Row) : option (list string) :=
  match K with
  | [] => Some []
  | f :: K' =>
      match get_cat f r, row_key K' r with
      | Some v, Some vs => Some (v :: vs)
      | _, _ => None
      end
  end.

(** [.agg({f1: 'sum', ..., fn: 'sum'})] on one group. *)
Definition agg_sum (fields : list NumField) (g : list Row) : list Z :=
  map (fun f => Series_sum (column_num f g)) fields.

(** A row of an aggregation result: the key values and the reduced values. *)
Definition GroupRow : Type := list string * list Z.

Definition AggregationResult : Type := list GroupRow.

(** [df.groupby(K).agg({f: 'sum' for f in fields}).reset_index()]: one row
    per group, the key values followed by the sums. *)
Definition groupReduce (d : Dataset) (K : list CatField) (fields : list NumField)
  : AggregationResult :=
  map (fun g => (fst g, agg_sum fields (snd g))) (groupby (row_key K) d).

(** The groups behind [groupReduce]: key and member rows. *)
Definition groups_of (d : Dataset) (K : list CatField)
  : list (list string * list Row) :=
  groupby (row_key K) d.

(** ** sort_values and head *)

(** [sort_values(by, ascending=False)] on one column, as pandas' [nargsort]
    does it: the rows are reversed, argsorted in ascending order with the
    requested [kind], and the outcome is reversed. [argsort] stands for
    numpy's [argsort(kind=...)]; the script does not pass [kind], so it is
    the default, 'quicksort'. *)
Definition ArgSort (A : Type) : Type := (A -> Z) -> list A -> list A.

Definition sort_values_desc {A : Type} (argsort : ArgSort A)
  (by_ : A -> Z) (rows : list A) : list A :=
  rev (argsort by_ (rev rows)).

(** [.head(n)] *)
Definition head {A : Type} (n : nat) (rows : list A) : list A := firstn n rows.

(** [result.sort_values(f, ascending=False).head(n)] *)
Definition topN {A : Type} (argsort : ArgSort A)
  (f : A -> Z) (n : nat) (result : list A) : list A :=
  head n (sort_values_desc argsort f result).

(** A stable ascending sort: numpy's [kind='stable']. *)
Fixpoint insert_stable {A : Type} (f : A -> Z) (x : A) (l : list A) : list A :=
  match l with
  | [] => [x]
  | y :: t => if f x <=? f y then x :: l else y :: insert_stable f x t
  end.

Definition argsort_stable {A : Type} : ArgSort A := fun f l =>
  fold_right (insert_stable f) [] l.

(** Orders on rows induced by the sort column. *)
Definition asc_by {A : Type} (f : A -> Z) (a b : A) : Prop := f a <= f b.
Definition desc_by {A : Type} (f : A -> Z) (a b : A) : Prop := f b <= f a.

(** [l'] lists the rows of [l] with rows of equal sort value in the order
    they have in [l]. *)
Definition same_tie_order {A : Type} (f : A -> Z) (l l' : list A) : Prop :=
  forall v, filter (fun x => f x =? v) l' = filter (fun x => f x =? v) l.

(** ** Dates *)

(** The parts of [pd.to_datetime] that read text. pandas guesses a format
    from the first non-null cell and parses every cell with it; when no
    format can be guessed each cell is parsed on its own by dateutil. *)
Record DateParser := mkDateParser {
  Format : Type;
  guess_datetime_format : string -> option Format;
  strptime : Format -> string -> option Timestamp;
  dateutil_parse : string -> option Timestamp }.

Definition first_valid {A : Type} (s : list (option A)) : option A :=
  hd_error (dropna s).

(** The reader [pd.to_datetime] applies to the cells of a column. *)
Definition cell_parser (P : DateParser) (s : list (option string))
  : string -> option Timestamp :=
  match first_valid s with
  | Some x =>
      match guess_datetime_format P x with
      | Some fmt => strptime P fmt
      | None => dateutil_parse P
      end
  | None => fun _ => None
  end.

(** [pd.to_datetime(series, errors='coerce')]: a cell that is NaN or that
    does not parse becomes NaT; nothing is raised. *)
Definition to_datetime_coerce (P : DateParser) (s : list (option string))
  : list (option Timestamp) :=
  map (fun c => match c with Some x => cell_parser P s x | None => None end) s.

(** A monthly [Period], by its ordinal: the number of months since 1970-01. *)
Definition Period := Z.

(** [Timestamp.to_period("M")] *)
Definition to_period_M (t : Timestamp) : Period :=
  (ts_year t - 1970) * 12 + (ts_month t - 1).

(** [series.dt.to_period("M")]; NaT stays NaT. *)
Definition dt_to_period_M (s : list (option Timestamp)) : list (option Period) :=
  map (option_map to_period_M) s.

(** [Period.to_timestamp()]: the first instant of the month. *)
Definition to_timestamp (p : Period) : Timestamp :=
  mkTimestamp (1970 + p / 12) (p mod 12 + 1) 1 0 0 0.

(** Chronological order of timestamps. *)
Definition ts_fields (t : Timestamp) : list Z :=
  [ts_year t; ts_month t; ts_day t; ts_hour t; ts_minute t; ts_second t].

Definition ts_lt (a b : Timestamp) : Prop :=
  list_cmp Z.compare (ts_fields a) (ts_fields b) = Lt.

(** Lines 66-67:
    [df.groupby(dates.dt.to_period("M")).agg({f: 'sum' ...}).reset_index()]
    followed by [.dt.to_timestamp()] on the key column. The key is a Series
    aligned with the rows of [d]. *)
Definition month_groups (dates : list (option Timestamp)) (d : Dataset)
  : list (Period * list (option Period * Row)) :=
  groupby fst (combine (dt_to_period_M dates) d).

Definition monthlyAggregate (dates : list (option Timestamp)) (d : Dataset)
  (valueFields : list NumField) : list (Timestamp * list Z) :=
  map (fun g => (to_timestamp (fst g), agg_sum valueFields (map snd (snd g))))
      (month_groups dates d).

(** ** Metrics *)

Record MetricSnapshot := mkMetricSnapshot {
  totalOrders : nat;
  uniqueCustomers : nat;
  totalSales : Z;
  avgProfitPerOrder : option Q }.

(** Lines 22-25: the four scalars of the overview. *)
Definition computeSnapshot (d : Dataset) : MetricSnapshot :=
  mkMetricSnapshot
    (Series_nunique (column_num FOrderId d))
    (Series_nunique (column_num FCustomerId d))
    (Series_sum (column_num FSales d))
    (Series_mean (column_num FOrderProfitPerOrder d)).

(** ** The script *)

(** What a chart is drawn from. *)
Inductive ChartData :=
| FrameData (frame : DataFrame)
| MonthlyData (rows : list (Timestamp * list Z))
| GroupData (rows : AggregationResult).

(** The value shown by a metric card. *)
Inductive Scalar :=
| Count (n : nat)
| Amount (z : Z)
| Average (q : option Q).

(** The elements the script can put on the page. [Alert] stands for
    Streamlit's [st.warning] / [st.error] / [st.exception] boxes. *)
Inductive Element :=
| Title
| Header
| Markdown
| Metric (label : string) (value : Scalar)
| Selectbox (label : string) (options : list (option string))
| PlotlyChart (title : string) (data : ChartData)
| Alert (message : string).

Definition is_alert (e : Element) : bool :=
  match e with Alert _ => true | _ => false end.

(** The state of one run: the global [df] and the page built so far. *)
Record App := mkApp { app_df : DataFrame; app_page : list Element }.

Definition Script (A : Type) : Type := App -> A * App.

Definition ret {A : Type} (a : A) : Script A := fun s => (a, s).

Definition bind {A B : Type} (c : Script A) (k : A -> Script B) : Script B :=
  fun s => let (a, s') := c s in k a s'.

Notation "x <- c ;; k" := (bind c (fun x => k))
  (at level 61, c at next level, right associativity).
Notation "c ;;; k" := (bind c (fun _ => k))
  (at level 61, right associativity).

Definition read_df : Script DataFrame := fun s => (app_df s, s).

(** [df['order_date'] = col]: the column is added to (or replaced in) the
    global frame. *)
Definition assign_order_date (col : list (option Timestamp)) : Script unit :=
  fun s => (tt, mkApp (mkDataFrame (df_rows (app_df s)) (Some col)) (app_page s)).

Definition emit (e : Element) : Script unit :=
  fun s => (tt, mkApp (app_df s) (app_page s ++ [e])).

(** [st.selectbox(label, options)]: the widget is shown and the option the
    user has picked is returned ([index] 0 until the user picks one); with no
    option at all the value is Python's [None], which like NaN is equal to
    no cell. *)
Definition selectbox (label : string) (options : list (option string))
  (index : nat) : Script (option string) :=
  emit (Selectbox label options) ;;;
  ret (match nth_error options index with Some v => v | None => None end).

(** Lines 17-36. *)
Definition tab_overview : Script unit :=
  emit Header ;;; emit Markdown ;;;
  df <- read_df ;;
  let m := computeSnapshot (df_rows df) in
  emit (Metric "Total Orders" (Count (totalOrders m))) ;;;
  emit (Metric "Unique Customers" (Count (uniqueCustomers m))) ;;;
  emit (Metric "Total Sales ($)" (Amount (totalSales m))) ;;;
  emit (Metric "Avg Profit per Order ($)" (Average (avgProfitPerOrder m))) ;;;
  emit Markdown ;;; emit Markdown ;;;
  emit (PlotlyChart "Order Status Distribution" (FrameData df)) ;;;
  emit (PlotlyChart "Shipping Mode Usage" (FrameData df)).

(** Lines 39-58; [index] is the position the user picked in the select
    box. *)
Definition tab_shipping (index : nat) : Script DataFrame :=
  emit Header ;;; emit Markdown ;;;
  df <- read_df ;;
  shipping_mode <- selectbox "Filter by Shipping Mode"
                     (Series_unique (column_cat FShippingMode (df_rows df))) index ;;
  let filtered := df_filterByValue df FShippingMode shipping_mode in
  emit (PlotlyChart "Actual Shipping Days Distribution" (FrameData filtered)) ;;;
  emit (PlotlyChart "Scheduled Shipping Days Distribution" (FrameData filtered)) ;;;
  emit (PlotlyChart "Late Delivery Risk by Shipping Mode" (FrameData df)) ;;;
  ret filtered.

(** Lines 61-73. *)
Definition tab_sales (P : DateParser) : Script (list (Timestamp * list Z)) :=
  emit Header ;;; emit Markdown ;;;
  df <- read_df ;;
  assign_order_date
    (to_datetime_coerce P (map order_date_DateOrders (df_rows df))) ;;;
  df <- read_df ;;
  let order_date :=
    match df_order_date df with Some col => col | None => [] end in
  let sales_by_month :=
    monthlyAggregate order_date (df_rows df) [FSales; FOrderProfitPerOrder] in
  emit (PlotlyChart "Monthly Sales Trend" (MonthlyData sales_by_month)) ;;;
  emit (PlotlyChart "Monthly Profit Trend" (MonthlyData sales_by_month)) ;;;
  ret sales_by_month.

(** plotly takes the [i]-th reduced column as marker sizes
    ([size=...]) only when no value is negative; otherwise the call raises
    a ValueError. *)
Definition size_ok (i : nat) (R : AggregationResult) : bool :=
  forallb (fun r => 0 <=? nth i (snd r) 0) R.

(** An exception that the script does not catch: Streamlit shows it on the
    page and the run ends there. *)
Definition uncaught (message : string) : Script unit := emit (Alert message).

(** Lines 76-84. [px.scatter_geo] is given [size="Order Profit Per Order"]
    (line 82), the second reduced column. The result tells whether the tab
    ran to its end. *)
Definition tab_geo : Script bool :=
  emit Header ;;; emit Markdown ;;;
  df <- read_df ;;
  let geo_df :=
    groupReduce (df_rows df) [FCustomerCountry; FCustomerCity]
                [FSales; FOrderProfitPerOrder] in
  if size_ok 1 geo_df
  then emit (PlotlyChart "Sales & Profit by Country" (GroupData geo_df)) ;;;
       ret true
  else uncaught "ValueError" ;;; ret false.

(** Lines 87-96. *)
Definition tab_customer : Script unit :=
  emit Header ;;; emit Markdown ;;;
  df <- read_df ;;
  emit (PlotlyChart "Orders by Customer Segment" (FrameData df)) ;;;
  emit (PlotlyChart "Sales per Customer by Segment" (FrameData df)).

(** The column [Sales] of [groupby(...).agg({'Sales': 'sum'})]: the first
    reduced value. *)
Definition sales_of (r : GroupRow) : Z := nth 0 (snd r) 0.

(** Lines 99-111. Both figures are built (lines 104 and 107) before either
    is shown (lines 110-111); [px.scatter] is given [size="Sales"], the
    first reduced column of [category_perf]. The result is the table of
    line 103. *)
Definition tab_product (argsort : ArgSort GroupRow) : Script AggregationResult :=
  emit Header ;;; emit Markdown ;;;
  df <- read_df ;;
  let top_products :=
    topN argsort sales_of 10 (groupReduce (df_rows df) [FProductName] [FSales]) in
  let category_perf :=
    groupReduce (df_rows df) [FCategoryName] [FSales; FOrderProfitPerOrder] in
  if size_ok 0 category_perf
  then emit (PlotlyChart "Top 10 Products by Sales" (GroupData top_products)) ;;;
       emit (PlotlyChart "Sales vs Profit by Category" (GroupData category_perf)) ;;;
       ret top_products
  else uncaught "ValueError" ;;; ret top_products.

(** One run of the script: the file is read (line 6) and the six tabs are
    executed in order; Streamlit executes the body of every tab on every
    run. When line 81 raises, the tabs after it are not executed. *)
Definition app_py (P : DateParser) (argsort : ArgSort GroupRow) (index : nat)
  : Script unit :=
  emit Title ;;; emit Markdown ;;;
  tab_overview ;;;
  tab_shipping index ;;;
  tab_sales P ;;;
  completed <- tab_geo ;;
  if completed : bool
  then tab_customer ;;; tab_product argsort ;;; ret tt
  else ret tt.

Definition run (P : DateParser) (argsort : ArgSort GroupRow) (index : nat)
  (d : Dataset) : App :=
  snd (app_py P argsort index (mkApp (read_csv d) [])).

(** ** Sample data *)

(** A row given by the cells the examples below look at. *)
Definition sample_row (order customer : option Z)
  (mode country city category product : option string)
  (sales profit : option Z) (date : option string) : Row :=
  mkRow order customer sales profit None None None None None mode None
        country city category product date.

Section Samples.
Local Open Scope string_scope.

(** Two orders from the same country, the first without a city. *)
Definition geo_sample : Dataset :=
  [ sample_row (Some 1) (Some 7) (Some "First Class") (Some "USA") None
      (Some "Golf") (Some "Glove") (Some 10) (Some 3) None;
    sample_row (Some 2) (Some 8) (Some "First Class") (Some "USA") (Some "Austin")
      (Some "Golf") (Some "Glove") (Some 5) None None ].

(** The scenario of the specification: Sales 100, 200, NaN for the
    categories A, A, B. *)
Definition category_sample : Dataset :=
  [ sample_row (Some 1) (Some 7) (Some "First Class") None None (Some "A")
      (Some "Glove") (Some 100) None None;
    sample_row (Some 2) (Some 7) (Some "Same Day") None None (Some "A")
      (Some "Ball") (Some 200) None None;
    sample_row (Some 3) (Some 8) (Some "Same Day") None None (Some "B")
      (Some "Tee") None None None ].

(** An aggregation result with a tie in the sort column. *)
Definition tied_result : AggregationResult :=
  [ (["Ball"], [5]); (["Glove"], [5]); (["Tee"], [9]) ].

(** Two orders, the first without a shipping mode. *)
Definition nan_mode_sample : Dataset :=
  [ sample_row (Some 1) (Some 7) None (Some "USA") (Some "Austin") (Some "A")
      (Some "Glove") (Some 100) (Some 10) (Some "2015-01");
    sample_row (Some 2) (Some 8) (Some "Standard Class") (Some "USA")
      (Some "Austin") (Some "A") (Some "Ball") (Some 200) (Some 20)
      (Some "not a date") ].

(** A date reader for the examples: every text is taken as unreadable. *)
Definition no_parser : DateParser :=
  mkDateParser unit (fun _ => None) (fun _ _ => None) (fun _ => None).

(** A date reader for the examples: year-month texts of the form [YYYY-MM]
    with [YYYY] in 2015..2018 written as ["2015-01"], ["2015-02"], ["2016-01"]
    are read, every other text is unreadable. *)
Definition tiny_parser : DateParser :=
  mkDateParser unit (fun _ => Some tt)
    (fun _ s =>
       if String.eqb s "2015-01" then Some (mkTimestamp 2015 1 1 0 0 0)
       else if String.eqb s "2015-02" then Some (mkTimestamp 2015 2 14 9 30 0)
       else if String.eqb s "2016-01" then Some (mkTimestamp 2016 1 31 23 59 59)
       else None)
    (fun _ => None).

End Samples.

(** ** Derived quantities *)

(** [dates.dt.to_period("M") == p] on one cell. *)
Definition in_month (p : Period) (d : option Timestamp) : bool :=
  match d with
  | Some t => to_period_M t =? p
  | None => false
  end.

(** A calendar month number. *)
Definition valid_month (t : Timestamp) : Prop := 1 <= ts_month t <= 12.

(** * Proofs *)

(** ** The order of group keys *)

#[export] Instance OrdLaws_Z : OrdLaws Z.
Proof.
  split; simpl.
  - intros a b; apply Z.compare_eq.
  - apply Z.compare_refl.
  - intros a b; apply Z.compare_antisym.
  - intros a b c Hab Hbc. rewrite Z.compare_lt_iff in *. lia.
Qed.

Lemma ascii_compare_refl (a : ascii) : Ascii.compare a a = Eq.
Proof. apply N.compare_refl. Qed.

Lemma ascii_compare_trans (a b c : ascii) :
  Ascii.compare a b = Lt -> Ascii.compare b c = Lt -> Ascii.compare a c = Lt.
Proof.
  unfold Ascii.compare. rewrite !N.compare_lt_iff. apply N.lt_trans.
Qed.

Lemma string_compare_refl (s : string) : String.compare s s = Eq.
Proof.
  induction s as [|a s IH]; simpl; [reflexivity|].
  now rewrite ascii_compare_refl.
Qed.

Lemma string_compare_trans (s1 s2 s3 : string) :
  String.compare s1 s2 = Lt -> String.compare s2 s3 = Lt ->
  String.compare s1 s3 = Lt.
Proof.
  revert s2 s3.
  induction s1 as [|a s1 IH]; intros [|b s2] [|c s3]; simpl;
    try congruence.
  destruct (Ascii.compare a b) eqn:Hab; try discriminate;
    destruct (Ascii.compare b c) eqn:Hbc; try discriminate; intros H1 H2.
  - apply Ascii.compare_eq_iff in Hab, Hbc. subst.
    rewrite ascii_compare_refl. eauto.
  - apply Ascii.compare_eq_iff in Hab. subst. now rewrite Hbc.
  - apply Ascii.compare_eq_iff in Hbc. subst. now rewrite Hab.
  - now rewrite (ascii_compare_trans _ _ _ Hab Hbc).
Qed.

#[export] Instance OrdLaws_string : OrdLaws string.
Proof.
  split; simpl.
  - apply String.compare_eq_iff.
  - apply string_compare_refl.
  - intros a b; apply String.compare_antisym.
  - apply string_compare_trans.
Qed.

Section ListOrder.
Context {A : Type} `{OrdLaws A}.

Lemma list_cmp_eq (x y : list A) : list_cmp cmp x y = Eq -> x = y.
Proof.
  revert y. induction x as [|a x IH]; intros [|b y]; simpl; try congruence.
  destruct (cmp a b) eqn:E; try discriminate.
  intros Hc. apply cmp_eq in E. subst. f_equal. auto.
Qed.

Lemma list_cmp_refl (x : list A) : list_cmp cmp x x = Eq.
Proof.
  induction x as [|a x IH]; simpl; [reflexivity|]. now rewrite cmp_refl.
Qed.

Lemma list_cmp_antisym (x y : list A) :
  list_cmp cmp y x = CompOpp (list_cmp cmp x y).
Proof.
  revert y. induction x as [|a x IH]; intros [|b y]; simpl; try reflexivity.
  rewrite (cmp_antisym a b). destruct (cmp a b); simpl; auto.
Qed.

Lemma list_cmp_trans (x y z : list A) :
  list_cmp cmp x y = Lt -> list_cmp cmp y z = Lt -> list_cmp cmp x z = Lt.
Proof.
  revert y z.
  induction x as [|a x IH]; intros [|b y] [|c z]; simpl; try congruence.
  destruct (cmp a b) eqn:Hab; try discriminate;
    destruct (cmp b c) eqn:Hbc; try discriminate; intros H1 H2.
  - apply cmp_eq in Hab, Hbc. subst. rewrite cmp_refl. eauto.
  - apply cmp_eq in Hab. subst. now rewrite Hbc.
  - apply cmp_eq in Hbc. subst. now rewrite Hab.
  - now rewrite (cmp_trans _ _ _ Hab Hbc).
Qed.

#[export] Instance OrdLaws_list : OrdLaws (list A).
Proof.
  split; simpl.
  - apply list_cmp_eq.
  - apply list_cmp_refl.
  - apply list_cmp_antisym.
  - apply list_cmp_trans.
Qed.
End ListOrder.

Section KeyFacts.
Context {K : Type} `{OrdLaws K}.

Lemma key_eqb_eq (a b : K) : key_eqb a b = true <-> a = b.
Proof.
  unfold key_eqb. split.
  - destruct (cmp a b) eqn:E; try discriminate. intros _. now apply cmp_eq.
  - intros ->. now rewrite cmp_refl.
Qed.

Lemma key_lt_irrefl (a : K) : ~ key_lt a a.
Proof. unfold key_lt. rewrite cmp_refl. discriminate. Qed.

Lemma key_lt_trans (a b c : K) : key_lt a b -> key_lt b c -> key_lt a c.
Proof. apply cmp_trans. Qed.

Lemma cmp_gt_lt (a b : K) : cmp a b = Gt -> key_lt b a.
Proof. unfold key_lt. rewrite (cmp_antisym a b). now intros ->. Qed.
End KeyFacts.

(** ** unique and dropna *)

Section Unique.
Context {A : Type} (eqb : A -> A -> bool).
Hypothesis eqb_spec : forall a b, eqb a b = true <-> a = b.

Lemma existsb_eqb_In (x : A) (l : list A) :
  existsb (eqb x) l = true <-> In x l.
Proof.
  rewrite existsb_exists. split.
  - intros [y [Hy E]]. apply eqb_spec in E. now subst.
  - intros Hx. exists x. split; [assumption|]. now apply eqb_spec.
Qed.

Lemma unique_from_In (seen s : list A) (x : A) :
  In x (unique_from eqb seen s) <-> In x s /\ ~ In x seen.
Proof.
  revert seen. induction s as [|y s IH]; intros seen; simpl.
  - tauto.
  - destruct (existsb (eqb y) seen) eqn:E.
    + apply existsb_eqb_In in E. rewrite IH. split.
      * tauto.
      * intros [[->|Hx] Hn]; tauto.
    + assert (Hy : ~ In y seen).
      { intros Hy. apply existsb_eqb_In in Hy. congruence. }
      simpl. rewrite IH. simpl. split.
      * intros [->|[Hx Hn]]; [tauto|]. split; [tauto|]. intros Hs. apply Hn. now right.
      * intros [[->|Hx] Hn]; [now left|].
        destruct (eqb y x) eqn:Eyx.
        -- apply eqb_spec in Eyx. now left.
        -- right. split; [assumption|]. intros [->|Hs]; [|tauto].
           assert (eqb x x = true) by now apply eqb_spec. congruence.
Qed.

Lemma unique_from_NoDup (seen s : list A) : NoDup (unique_from eqb seen s).
Proof.
  revert seen. induction s as [|y s IH]; intros seen; simpl.
  - constructor.
  - destruct (existsb (eqb y) seen); [apply IH|].
    constructor; [|apply IH].
    rewrite unique_from_In. simpl. tauto.
Qed.

Lemma unique_In (s : list A) (x : A) : In x (unique eqb s) <-> In x s.
Proof. unfold unique. rewrite unique_from_In. simpl. tauto. Qed.

Lemma unique_NoDup (s : list A) : NoDup (unique eqb s).
Proof. apply unique_from_NoDup. Qed.

End Unique.

Lemma dropna_In {A : Type} (s : list (option A)) (x : A) :
  In x (dropna s) <-> In (Some x) s.
Proof.
  induction s as [|[y|] s IH]; simpl.
  - tauto.
  - rewrite IH. split; intros [E|Hx]; auto; left; congruence.
  - rewrite IH. split; [auto|]. intros [E|Hx]; [discriminate|assumption].
Qed.

Lemma opt_eqb_string_spec (a b : option string) :
  opt_eqb String.eqb a b = true <-> a = b.
Proof.
  destruct a as [x|], b as [y|]; simpl; try (split; congruence).
  rewrite String.eqb_eq. split; congruence.
Qed.

(** ** Sorting the keys *)

Section SortKeys.
Context {K : Type} `{OrdLaws K}.

Lemma insert_key_perm (k : K) (ks : list K) :
  Permutation (insert_key k ks) (k :: ks).
Proof.
  induction ks as [|k' t IH]; simpl; [reflexivity|].
  destruct (cmp k k'); try reflexivity.
  rewrite IH. apply perm_swap.
Qed.

Lemma sort_keys_perm (ks : list K) : Permutation (sort_keys ks) ks.
Proof.
  induction ks as [|k t IH]; simpl; [reflexivity|].
  rewrite insert_key_perm. now constructor.
Qed.

Lemma insert_key_sorted (k : K) (ks : list K) :
  StronglySorted key_lt ks -> ~ In k ks ->
  StronglySorted key_lt (insert_key k ks).
Proof.
  induction ks as [|k' t IH]; simpl; intros Hs Hn.
  - repeat constructor.
  - inversion Hs as [|? ? Ht Hall]; subst.
    destruct (cmp k k') eqn:E.
    + apply cmp_eq in E. subst. tauto.
    + constructor; [assumption|]. constructor; [exact E|].
      eapply Forall_impl; [|exact Hall]. intros c Hc.
      exact (key_lt_trans _ _ _ E Hc).
    + constructor; [apply IH; tauto|].
      rewrite (Forall_forall (key_lt k')). intros c Hc.
      apply (Permutation_in _ (insert_key_perm k t)) in Hc.
      destruct Hc as [<-|Hc]; [now apply cmp_gt_lt|].
      rewrite Forall_forall in Hall. auto.
Qed.

Lemma sort_keys_sorted (ks : list K) :
  NoDup ks -> StronglySorted key_lt (sort_keys ks).
Proof.
  induction 1 as [|k t Hn Hnd IH]; simpl; [constructor|].
  apply insert_key_sorted; [assumption|].
  intros Hk. apply Hn. exact (Permutation_in _ (sort_keys_perm t) Hk).
Qed.

Lemma sorted_lt_NoDup (ks : list K) : StronglySorted key_lt ks -> NoDup ks.
Proof.
  induction 1 as [|k t Hs IH Hall]; constructor; [|assumption].
  intros Hk. rewrite Forall_forall in Hall.
  exact (key_lt_irrefl _ (Hall _ Hk)).
Qed.
End SortKeys.

(** ** groupby *)

Lemma filter_disjoint_perm {A : Type} (p q : A -> bool) (l : list A) :
  (forall x, In x l -> p x = true -> q x = false) ->
  Permutation (filter p l ++ filter q l) (filter (fun x => p x || q x) l).
Proof.
  induction l as [|x l IH]; intros Hd; simpl; [reflexivity|].
  assert (IH' := IH (fun y Hy => Hd y (or_intror Hy))).
  destruct (p x) eqn:Ep; simpl.
  - rewrite (Hd x (or_introl eq_refl) Ep). now constructor.
  - destruct (q x); [|assumption].
    rewrite <- Permutation_middle. now constructor.
Qed.

Section GroupBy.
Context {K R : Type} `{OrdLaws K} (key : R -> option K).

Lemma has_key_true (k : K) (r : R) : has_key key k r = true <-> key r = Some k.
Proof.
  unfold has_key. destruct (key r) as [k'|].
  - rewrite key_eqb_eq. split; congruence.
  - split; discriminate.
Qed.

Lemma group_keys_In (rows : list R) (k : K) :
  In k (group_keys key rows) <-> exists r, In r rows /\ key r = Some k.
Proof.
  unfold group_keys. split.
  - intros Hk. apply (Permutation_in _ (sort_keys_perm _)) in Hk.
    rewrite (unique_In _ key_eqb_eq), dropna_In, in_map_iff in Hk.
    destruct Hk as [r [E Hr]]. eauto.
  - intros [r [Hr E]].
    apply (Permutation_in _ (Permutation_sym (sort_keys_perm _))).
    rewrite (unique_In _ key_eqb_eq), dropna_In, in_map_iff. eauto.
Qed.

Lemma group_keys_sorted (rows : list R) :
  StronglySorted key_lt (group_keys key rows).
Proof. apply sort_keys_sorted, (unique_NoDup _ key_eqb_eq). Qed.

Lemma group_keys_NoDup (rows : list R) : NoDup (group_keys key rows).
Proof. apply sorted_lt_NoDup, group_keys_sorted. Qed.

Lemma groupby_keys (rows : list R) :
  map fst (groupby key rows) = group_keys key rows.
Proof. unfold groupby. rewrite map_map. simpl. apply map_id. Qed.

Lemma groupby_In (rows : list R) (k : K) (g : list R) :
  In (k, g) (groupby key rows) <->
  In k (group_keys key rows) /\ g = filter (has_key key k) rows.
Proof.
  unfold groupby. rewrite in_map_iff. split.
  - intros [k' [E Hk]]. inversion E; subst. auto.
  - intros [Hk ->]. eauto.
Qed.

(** Every group has a member. *)
Lemma groupby_nonempty (rows : list R) (k : K) (g : list R) :
  In (k, g) (groupby key rows) -> g <> [].
Proof.
  rewrite groupby_In, group_keys_In. intros [[r [Hr E]] ->] Hnil.
  assert (Hin : In r (filter (has_key key k) rows)).
  { apply filter_In. split; [assumption|]. now apply has_key_true. }
  rewrite Hnil in Hin. inversion Hin.
Qed.

Lemma concat_groups_perm (rows : list R) (ks : list K) :
  NoDup ks ->
  Permutation (List.concat (map (fun k => filter (has_key key k) rows) ks))
              (filter (fun r => existsb (fun k => has_key key k r) ks) rows).
Proof.
  induction 1 as [|k t Hn Hnd IH]; simpl.
  - induction rows; simpl; auto.
  - rewrite IH. apply filter_disjoint_perm.
    intros r _ Hr. apply has_key_true in Hr.
    apply not_true_is_false. rewrite existsb_exists.
    intros [k' [Hk' Hr']]. apply has_key_true in Hr'.
    assert (k' = k) by congruence. subst. tauto.
Qed.

Lemma keyed_in_some_group (rows : list R) (r : R) :
  In r rows ->
  existsb (fun k => has_key key k r) (group_keys key rows) = is_some (key r).
Proof.
  intros Hr. destruct (key r) as [k|] eqn:E; simpl.
  - apply existsb_exists. exists k. split.
    + apply group_keys_In. eauto.
    + now apply has_key_true.
  - apply not_true_is_false. rewrite existsb_exists.
    intros [k [_ Hk]]. apply has_key_true in Hk. congruence.
Qed.

(** The groups hold exactly the rows that have a key, each once. *)
Lemma groupby_partition (rows : list R) :
  Permutation (List.concat (map snd (groupby key rows)))
              (filter (fun r => is_some (key r)) rows).
Proof.
  unfold groupby. rewrite map_map. simpl.
  rewrite (concat_groups_perm rows _ (group_keys_NoDup rows)).
  erewrite filter_ext_in; [reflexivity|].
  intros r Hr. now apply keyed_in_some_group.
Qed.
End GroupBy.

Lemma groupReduce_keys (d : Dataset) (K : list CatField) (fields : list NumField) :
  map fst (groupReduce d K fields) = map fst (groups_of d K).
Proof. unfold groupReduce, groups_of. now rewrite map_map. Qed.

(** A row has a key exactly when none of its key fields is NaN. *)
Lemma row_key_some (K : list CatField) (r : Row) :
  is_some (row_key K r) = forallb (fun f => is_some (get_cat f r)) K.
Proof.
  induction K as [|f K IH]; simpl; [reflexivity|].
  rewrite <- IH. destruct (get_cat f r), (row_key K r); reflexivity.
Qed.

Lemma row_key_values (K : list CatField) (r : Row) (k : list string) :
  row_key K r = Some k <-> map (fun f => get_cat f r) K = map Some k.
Proof.
  revert k. induction K as [|f K IH]; simpl; intros k.
  - destruct k; simpl; split; congruence.
  - destruct k as [|v' k]; simpl.
    + destruct (get_cat f r), (row_key K r); split; discriminate.
    + specialize (IH k). destruct (get_cat f r) as [v|]; [|split; discriminate].
      destruct (row_key K r) as [vs|].
      * split.
        -- intros [= -> ->]. f_equal. now apply IH.
        -- intros [= -> Hk]. apply IH in Hk. congruence.
      * split; [discriminate|]. intros [= -> Hk]. apply IH in Hk. discriminate.
Qed.

(** ** C1: what groupReduce groups *)

(** C1 (as amended). For every Dataset [D], key fields [K] and summed fields:
    [groupReduce] has one result row per group and the group keys are
    strictly increasing, hence pairwise distinct; a key occurs exactly when
    some row of [D] has it with all key fields present; a group holds, in
    order, the rows of [D] with its key; and the groups together are the rows
    of [D] none of whose key fields is NaN, each once. Rows with a NaN key
    field are in no group. *)
Theorem groupReduce_partitions_keyed_rows
  (D : Dataset) (K : list CatField) (fields : list NumField) :
  map fst (groupReduce D K fields) = map fst (groups_of D K)
  /\ StronglySorted key_lt (map fst (groupReduce D K fields))
  /\ NoDup (map fst (groupReduce D K fields))
  /\ (forall k, In k (map fst (groupReduce D K fields)) <->
                exists r, In r D /\ map (fun f => get_cat f r) K = map Some k)
  /\ (forall k g, In (k, g) (groups_of D K) ->
                  g <> [] /\ g = filter (has_key (row_key K) k) D)
  /\ Permutation (List.concat (map snd (groups_of D K)))
                 (filter (fun r => forallb (fun f => is_some (get_cat f r)) K) D).
Proof.
  rewrite groupReduce_keys. unfold groups_of. rewrite groupby_keys.
  split; [reflexivity|].
  split; [apply group_keys_sorted|].
  split; [apply group_keys_NoDup|].
  split; [|split].
  - intros k. rewrite group_keys_In. split; intros [r [Hr E]]; exists r;
      (split; [assumption|]); now apply row_key_values.
  - intros k g Hg. split; [exact (groupby_nonempty _ _ _ _ Hg)|].
    now apply groupby_In in Hg.
  - rewrite groupby_partition. erewrite filter_ext; [reflexivity|].
    intros r. apply row_key_some.
Qed.

(** C1 (as stated) fails: a row whose city is NaN is dropped by
    [groupby(['Customer Country', 'Customer City'])]; there is no bucket for
    it, so the groups do not cover the Dataset. *)
Lemma groupReduce_drops_missing_keys :
  groupReduce geo_sample [FCustomerCountry; FCustomerCity]
              [FSales; FOrderProfitPerOrder]
    = [(["USA"; "Austin"]%string, [5; 0])]
  /\ List.concat (map snd (groups_of geo_sample [FCustomerCountry; FCustomerCity]))
     = tl geo_sample
  /\ ~ Permutation
        (List.concat (map snd (groups_of geo_sample [FCustomerCountry; FCustomerCity])))
        geo_sample.
Proof.
  split; [reflexivity|]. split; [reflexivity|].
  intros HP. apply Permutation_length in HP. discriminate HP.
Qed.

(** ** Sums *)

Lemma fold_sum_acc (s : list (option Z)) (a : Z) :
  fold_left (fun acc c => match c with Some v => acc + v | None => acc end) s a
  = a + Series_sum s.
Proof.
  unfold Series_sum. revert a. induction s as [|[v|] s IH]; intros a; simpl.
  - lia.
  - rewrite IH, (IH v). lia.
  - apply IH.
Qed.

Lemma Series_sum_cons (c : option Z) (s : list (option Z)) :
  Series_sum (c :: s) = match c with Some v => v | None => 0 end + Series_sum s.
Proof.
  unfold Series_sum at 1. simpl. destruct c as [v|]; rewrite fold_sum_acc; lia.
Qed.

(** A column without a single value sums to 0. *)
Lemma Series_sum_all_nan (s : list (option Z)) :
  (forall c, In c s -> c = None) -> Series_sum s = 0.
Proof.
  induction s as [|c s IH]; intros Hs; [reflexivity|].
  rewrite Series_sum_cons, IH by (intros; apply Hs; now right).
  now rewrite (Hs c (or_introl eq_refl)).
Qed.

(** ** C6: filtering *)

Lemma boolean_index_map {A : Type} (p : A -> bool) (l : list A) :
  boolean_index (map p l) l = filter p l.
Proof.
  induction l as [|x l IH]; simpl; [reflexivity|]. now rewrite IH.
Qed.

Lemma filterByValue_filter (d : Dataset) (f : CatField) (v : option string) :
  filterByValue d f v = filter (fun r => cell_eq (get_cat f r) v) d.
Proof.
  unfold filterByValue, Series_eq, column_cat. rewrite map_map.
  apply boolean_index_map.
Qed.

Lemma filter_idem {A : Type} (p : A -> bool) (l : list A) :
  filter p (filter p l) = filter p l.
Proof.
  induction l as [|x l IH]; simpl; [reflexivity|].
  destruct (p x) eqn:E; simpl; [rewrite E; f_equal|]; assumption.
Qed.

Lemma cell_eq_true (c v : option string) :
  cell_eq c v = true <-> exists s, c = Some s /\ v = Some s.
Proof.
  destruct c as [a|], v as [b|]; simpl;
    try (split; [discriminate|intros [s [? ?]]; discriminate]).
  rewrite String.eqb_eq. split.
  - intros ->. eauto.
  - intros [s [? ?]]. congruence.
Qed.

(** C6. [filterByValue] is idempotent: filtering the result of a filter by
    the same field and value returns that result. Matching is exact equality
    of the cell with the value: a row is kept exactly when its cell is
    present and is the same string. *)
Theorem filterByValue_idempotent (D : Dataset) (f : CatField) (v : option string) :
  filterByValue (filterByValue D f v) f v = filterByValue D f v
  /\ forall r, In r (filterByValue D f v) <->
               In r D /\ exists s, get_cat f r = Some s /\ v = Some s.
Proof.
  rewrite !filterByValue_filter. split; [apply filter_idem|].
  intros r. now rewrite filter_In, cell_eq_true.
Qed.

(** ** C10: the sum of a group without values *)

Lemma agg_sum_all_nan (fields : list NumField) (g : list Row) :
  (forall r f, In r g -> In f fields -> get_num f r = None) ->
  agg_sum fields g = map (fun _ => 0) fields.
Proof.
  intros Hg. unfold agg_sum. apply map_ext_in. intros f Hf.
  apply Series_sum_all_nan. unfold column_num. intros c Hc.
  apply in_map_iff in Hc. destruct Hc as [r [<- Hr]]. auto.
Qed.

(** C10. In [groupReduce] with sum reductions, a group whose measure values
    are all NaN is part of the result, with the sum 0. *)
Theorem groupReduce_all_nan_group_sums_to_zero
  (D : Dataset) (K : list CatField) (fields : list NumField) (k : list string)
  (Hgroup : exists r, In r D /\ row_key K r = Some k)
  (Hnan : forall r f, In r D -> row_key K r = Some k -> In f fields ->
                      get_num f r = None) :
  In (k, map (fun _ => 0) fields) (groupReduce D K fields).
Proof.
  unfold groupReduce. apply in_map_iff.
  exists (k, filter (has_key (row_key K) k) D). simpl. split.
  - f_equal. apply agg_sum_all_nan. intros r f Hr Hf.
    apply filter_In in Hr. destruct Hr as [Hr Hk].
    apply has_key_true in Hk. eauto.
  - apply groupby_In. split; [|reflexivity]. now apply group_keys_In.
Qed.

Example groupReduce_scenario :
  groupReduce category_sample [FCategoryName] [FSales]
  = [(["A"]%string, [300]); (["B"]%string, [0])].
Proof. reflexivity. Qed.

Lemma groupReduce_all_nan_group_witness :
  In (["B"]%string, [0]) (groupReduce category_sample [FCategoryName] [FSales]).
Proof.
  apply (groupReduce_all_nan_group_sums_to_zero
           category_sample [FCategoryName] [FSales] ["B"%string]).
  - eexists. split; [right; right; left; reflexivity|reflexivity].
  - intros r f Hr Hk Hf. simpl in Hf. destruct Hf as [<-|[]].
    simpl in Hr. destruct Hr as [<-|[<-|[<-|[]]]];
      solve [reflexivity | discriminate Hk].
Defined.

(** ** Sorted lists *)

Section SortedLists.
Context {A : Type}.

Lemma StronglySorted_app (R : A -> A -> Prop) (l1 l2 : list A) :
  StronglySorted R l1 -> StronglySorted R l2 ->
  (forall a b, In a l1 -> In b l2 -> R a b) ->
  StronglySorted R (l1 ++ l2).
Proof.
  induction 1 as [|x l1 Hs IH Hall]; intros Hs2 Hc; simpl; [assumption|].
  constructor.
  - apply IH; [assumption|]. intros a b Ha Hb. apply Hc; simpl; auto.
  - apply Forall_app. split; [assumption|].
    apply Forall_forall. intros b Hb. apply Hc; simpl; auto.
Qed.

Lemma StronglySorted_rev (R : A -> A -> Prop) (l : list A) :
  StronglySorted R l -> StronglySorted (fun a b => R b a) (rev l).
Proof.
  induction 1 as [|x l Hs IH Hall]; simpl; [constructor|].
  apply StronglySorted_app; [assumption|repeat constructor|].
  intros a b Ha [<-|[]]. rewrite Forall_forall in Hall.
  apply Hall. now apply in_rev.
Qed.

Lemma StronglySorted_firstn (R : A -> A -> Prop) (n : nat) (l : list A) :
  StronglySorted R l -> StronglySorted R (firstn n l).
Proof.
  intros Hs. revert n. induction Hs as [|x l Hs IH Hall]; intros [|n]; simpl;
    try constructor; [apply IH|].
  rewrite Forall_forall in *. intros y Hy. apply Hall.
  rewrite <- (firstn_skipn n l). apply in_or_app. now left.
Qed.

Lemma StronglySorted_split (R : A -> A -> Prop) (n : nat) (l : list A) :
  StronglySorted R l ->
  forall a b, In a (firstn n l) -> In b (skipn n l) -> R a b.
Proof.
  intros Hs. revert n. induction Hs as [|x l Hs IH Hall]; intros [|n] a b;
    simpl; try tauto.
  intros [<-|Ha] Hb.
  - rewrite Forall_forall in Hall. apply Hall.
    rewrite <- (firstn_skipn n l). apply in_or_app. now right.
  - eauto.
Qed.

Lemma StronglySorted_map {B : Type} (R : A -> A -> Prop) (Q : B -> B -> Prop)
  (g : A -> B) (l : list A) :
  (forall a b, R a b -> Q (g a) (g b)) ->
  StronglySorted R l -> StronglySorted Q (map g l).
Proof.
  intros Hg. induction 1 as [|x l Hs IH Hall]; simpl; constructor;
    [assumption|].
  rewrite Forall_forall in *. intros y Hy.
  apply in_map_iff in Hy. destruct Hy as [a [<- Ha]]. auto.
Qed.

Lemma StronglySorted_weaken (R Q : A -> A -> Prop) (l : list A) :
  (forall a b, R a b -> Q a b) -> StronglySorted R l -> StronglySorted Q l.
Proof.
  intros HRQ Hs. rewrite <- (map_id l).
  exact (StronglySorted_map R Q (fun a => a) l HRQ Hs).
Qed.
End SortedLists.

(** Two descending lists with the same elements are the same list. *)
Lemma sorted_desc_unique (l1 l2 : list Z) :
  Permutation l1 l2 ->
  StronglySorted (fun a b => b <= a) l1 -> StronglySorted (fun a b => b <= a) l2 ->
  l1 = l2.
Proof.
  revert l2. induction l1 as [|a t1 IH]; intros l2 HP H1 H2.
  - apply Permutation_nil in HP. now subst.
  - destruct l2 as [|b t2].
    + apply Permutation_sym, Permutation_nil in HP. discriminate.
    + inversion H1 as [|? ? Hs1 Ha]; inversion H2 as [|? ? Hs2 Hb]; subst.
      rewrite Forall_forall in Ha, Hb.
      assert (a = b).
      { assert (Hab : In a (b :: t2)) by (apply (Permutation_in _ HP); now left).
        assert (Hba : In b (a :: t1))
          by (apply (Permutation_in _ (Permutation_sym HP)); now left).
        destruct Hab as [->|Hab]; [reflexivity|].
        destruct Hba as [->|Hba]; [reflexivity|].
        apply Hb in Hab. apply Ha in Hba. lia. }
      subst. f_equal. apply IH; [|assumption|assumption].
      now apply Permutation_cons_inv in HP.
Qed.

(** Rows with pairwise distinct sort values are determined by the sequence of
    their sort values. *)
Lemma perm_same_values {A : Type} (f : A -> Z) (l1 l2 : list A) :
  Permutation l1 l2 -> map f l1 = map f l2 -> NoDup (map f l1) -> l1 = l2.
Proof.
  revert l2. induction l1 as [|a t1 IH]; intros [|b t2] HP E Hnd;
    try discriminate; [reflexivity|].
  simpl in E. injection E as Eab Et. inversion Hnd as [|? ? Hn Hnd']; subst.
  assert (a = b).
  { assert (Hb : In b (a :: t1))
      by (apply (Permutation_in _ (Permutation_sym HP)); now left).
    destruct Hb as [->|Hb]; [reflexivity|].
    exfalso. apply Hn. rewrite Eab. now apply in_map. }
  subst. f_equal. apply IH; [|assumption|assumption].
  now apply Permutation_cons_inv in HP.
Qed.

(** ** The stable argsort *)

Section StableSort.
Context {A : Type} (f : A -> Z).

Lemma insert_stable_perm (x : A) (l : list A) :
  Permutation (insert_stable f x l) (x :: l).
Proof.
  induction l as [|y t IH]; simpl; [reflexivity|].
  destruct (f x <=? f y); [reflexivity|].
  rewrite IH. apply perm_swap.
Qed.

Lemma argsort_stable_perm (l : list A) : Permutation (argsort_stable f l) l.
Proof.
  induction l as [|x t IH]; simpl; [reflexivity|].
  unfold argsort_stable in *. simpl. rewrite insert_stable_perm. now constructor.
Qed.

Lemma insert_stable_sorted (x : A) (l : list A) :
  StronglySorted (asc_by f) l -> StronglySorted (asc_by f) (insert_stable f x l).
Proof.
  induction 1 as [|y t Hs IH Hall]; simpl; [repeat constructor|].
  destruct (f x <=? f y) eqn:E.
  - apply Z.leb_le in E. constructor; [now constructor|].
    constructor; [exact E|].
    eapply Forall_impl; [|exact Hall]. unfold asc_by. intros; lia.
  - apply Z.leb_gt in E. constructor; [assumption|].
    rewrite Forall_forall in *. intros z Hz.
    apply (Permutation_in _ (insert_stable_perm x t)) in Hz.
    destruct Hz as [<-|Hz]; [unfold asc_by; lia|auto].
Qed.

Lemma argsort_stable_sorted (l : list A) :
  StronglySorted (asc_by f) (argsort_stable f l).
Proof.
  induction l as [|x t IH]; [constructor|].
  apply insert_stable_sorted, IH.
Qed.

(** Insertion moves a row only past rows with a smaller sort value. *)
Lemma insert_stable_ties (x : A) (l : list A) :
  same_tie_order f (x :: l) (insert_stable f x l).
Proof.
  intros v. induction l as [|y t IH]; simpl; [reflexivity|].
  destruct (f x <=? f y) eqn:E; [reflexivity|].
  apply Z.leb_gt in E. simpl in *. rewrite IH.
  destruct (f x =? v) eqn:Ex; [|reflexivity].
  apply Z.eqb_eq in Ex.
  assert (Ey : (f y =? v) = false) by (apply Z.eqb_neq; lia).
  now rewrite Ey.
Qed.

Lemma argsort_stable_ties (l : list A) :
  same_tie_order f l (argsort_stable f l).
Proof.
  intros v. induction l as [|x t IH]; [reflexivity|].
  change (argsort_stable f (x :: t))
    with (insert_stable f x (argsort_stable f t)).
  rewrite insert_stable_ties. simpl. now rewrite IH.
Qed.

Lemma filter_rev (p : A -> bool) (l : list A) :
  filter p (rev l) = rev (filter p l).
Proof.
  induction l as [|x t IH]; simpl; [reflexivity|].
  rewrite filter_app, IH. simpl. destruct (p x); simpl;
    [reflexivity|apply app_nil_r].
Qed.

End StableSort.

(** ** topN *)

(** Ascending lists that agree on the order of equal values are equal. *)
Lemma sorted_same_ties_eq {A : Type} (f : A -> Z) (l l' : list A) :
  StronglySorted (asc_by f) l -> StronglySorted (asc_by f) l' ->
  same_tie_order f l l' -> l' = l.
Proof.
  intros Hl. revert l'. induction Hl as [|x t Ht IH Hx]; intros l' Hl' Hties.
  - destruct l' as [|y t']; [reflexivity|].
    specialize (Hties (f y)). simpl in Hties. rewrite Z.eqb_refl in Hties.
    discriminate.
  - destruct Hl' as [|y t' Ht' Hy].
    + specialize (Hties (f x)). simpl in Hties. rewrite Z.eqb_refl in Hties.
      discriminate.
    + rewrite Forall_forall in Hx, Hy. unfold asc_by in Hx, Hy.
      assert (Hxy : f x = f y).
      { assert (Hyl : In y (x :: t)).
        { assert (Hin : In y (filter (fun a => f a =? f y) (x :: t))).
          { rewrite <- (Hties (f y)). simpl. rewrite Z.eqb_refl. now left. }
          apply filter_In in Hin. tauto. }
        assert (Hxl : In x (y :: t')).
        { assert (Hin : In x (filter (fun a => f a =? f x) (y :: t'))).
          { rewrite (Hties (f x)). simpl. rewrite Z.eqb_refl. now left. }
          apply filter_In in Hin. tauto. }
        destruct Hyl as [->|Hyl]; [reflexivity|].
        destruct Hxl as [->|Hxl]; [reflexivity|].
        apply Hx in Hyl. apply Hy in Hxl. lia. }
      assert (Hhead := Hties (f x)). simpl in Hhead.
      rewrite Z.eqb_refl, <- Hxy, Z.eqb_refl in Hhead.
      injection Hhead as Eyx Htail. subst y. f_equal.
      apply IH; [assumption|]. intros v.
      specialize (Hties v). simpl in Hties.
      destruct (f x =? v) eqn:Ev; [|assumption].
      apply Z.eqb_eq in Ev. subst v. exact Htail.
Qed.

Section TopN.
Context {A : Type} (argsort : ArgSort A).

(** What numpy promises of [argsort] whatever the kind: the rows come back
    rearranged into ascending order of the sort column. *)
Hypothesis argsort_perm : forall f l, Permutation (argsort f l) l.
Hypothesis argsort_sorted : forall f l, StronglySorted (asc_by f) (argsort f l).

Lemma sort_values_desc_perm (f : A -> Z) (l : list A) :
  Permutation (sort_values_desc argsort f l) l.
Proof.
  unfold sort_values_desc.
  rewrite <- Permutation_rev, argsort_perm. apply Permutation_sym, Permutation_rev.
Qed.

Lemma sort_values_desc_sorted (f : A -> Z) (l : list A) :
  StronglySorted (desc_by f) (sort_values_desc argsort f l).
Proof.
  unfold sort_values_desc.
  exact (StronglySorted_rev _ _ (argsort_sorted f (rev l))).
Qed.

Lemma topN_length (f : A -> Z) (n : nat) (l : list A) :
  (List.length (topN argsort f n l) <= n)%nat.
Proof. unfold topN, head. apply firstn_le_length. Qed.

Lemma topN_sorted (f : A -> Z) (n : nat) (l : list A) :
  StronglySorted (desc_by f) (topN argsort f n l).
Proof. apply StronglySorted_firstn, sort_values_desc_sorted. Qed.

(** Re-sorting rows that are already in descending order keeps the
    sequence of their sort values. *)
Lemma resort_values (f : A -> Z) (l : list A) :
  StronglySorted (desc_by f) l ->
  map f (sort_values_desc argsort f l) = map f l.
Proof.
  intros Hs. apply sorted_desc_unique.
  - apply Permutation_map, sort_values_desc_perm.
  - eapply StronglySorted_map; [|apply sort_values_desc_sorted]. auto.
  - eapply StronglySorted_map; [|exact Hs]. auto.
Qed.

Lemma topN_again (f : A -> Z) (n m : nat) (l : list A) :
  (n <= m)%nat ->
  topN argsort f m (topN argsort f n l)
  = sort_values_desc argsort f (topN argsort f n l).
Proof.
  intros Hnm. unfold topN at 1. unfold head. apply firstn_all2.
  rewrite (Permutation_length (sort_values_desc_perm f _)).
  pose proof (topN_length f n l). lia.
Qed.

(** When the sort keeps equal values in input order, so does the descending
    sort, and rows already in descending order are left as they are. *)
Lemma sort_values_desc_ties (f : A -> Z) (l : list A) :
  (forall l0, same_tie_order f l0 (argsort f l0)) ->
  same_tie_order f l (sort_values_desc argsort f l).
Proof.
  intros Hst v. unfold sort_values_desc.
  rewrite filter_rev, (Hst (rev l) v), filter_rev. apply rev_involutive.
Qed.

Lemma sort_values_desc_id (f : A -> Z) (l : list A) :
  (forall l0, same_tie_order f l0 (argsort f l0)) ->
  StronglySorted (desc_by f) l -> sort_values_desc argsort f l = l.
Proof.
  intros Hst Hs. unfold sort_values_desc.
  rewrite (sorted_same_ties_eq f (rev l) (argsort f (rev l))).
  - apply rev_involutive.
  - exact (StronglySorted_rev _ _ Hs).
  - apply argsort_sorted.
  - apply Hst.
Qed.

(** X16. For every table [R], sort field [f] and bounds [n <= m], whatever
    the kind of the sort: [topN R f n] has at most [n] rows, in descending
    order of [f]; they are rows of [R], and no row left out has a larger
    value than a row kept; applying [topN] again with [m] returns the same
    rows with the same sequence of [f] values, and the same sequence of rows
    when the values of [f] are pairwise distinct. If the sort keeps rows of
    equal value in input order, then so does [topN], and applying [topN]
    again returns the same sequence. *)
Theorem topN_keeps_the_largest_in_descending_order
  (f : A -> Z) (n m : nat) (R : list A) (Hnm : (n <= m)%nat) :
  (List.length (topN argsort f n R) <= n)%nat
  /\ StronglySorted (desc_by f) (topN argsort f n R)
  /\ (exists rest, Permutation (topN argsort f n R ++ rest) R
                   /\ forall a b, In a (topN argsort f n R) -> In b rest ->
                                  f b <= f a)
  /\ Permutation (topN argsort f m (topN argsort f n R)) (topN argsort f n R)
  /\ map f (topN argsort f m (topN argsort f n R)) = map f (topN argsort f n R)
  /\ (NoDup (map f R) ->
      topN argsort f m (topN argsort f n R) = topN argsort f n R)
  /\ ((forall l, same_tie_order f l (argsort f l)) ->
      same_tie_order f R (sort_values_desc argsort f R)
      /\ topN argsort f m (topN argsort f n R) = topN argsort f n R).
Proof.
  split; [apply topN_length|].
  split; [apply topN_sorted|].
  split.
  { exists (skipn n (sort_values_desc argsort f R)). split.
    - unfold topN, head. rewrite firstn_skipn. apply sort_values_desc_perm.
    - intros a b Ha Hb.
      exact (StronglySorted_split _ n _ (sort_values_desc_sorted f R) a b Ha Hb). }
  assert (HP : Permutation (topN argsort f m (topN argsort f n R))
                           (topN argsort f n R)).
  { rewrite topN_again by assumption. apply sort_values_desc_perm. }
  assert (HV : map f (topN argsort f m (topN argsort f n R))
               = map f (topN argsort f n R)).
  { rewrite topN_again by assumption. apply resort_values, topN_sorted. }
  split; [exact HP|]. split; [exact HV|].
  split.
  { intros Hnd. apply (perm_same_values f); [exact HP|exact HV|].
    rewrite HV. clear HP HV.
    assert (Hsub : exists rest, Permutation (topN argsort f n R ++ rest) R).
    { exists (skipn n (sort_values_desc argsort f R)).
      unfold topN, head. rewrite firstn_skipn. apply sort_values_desc_perm. }
    destruct Hsub as [rest Hrest].
    apply (Permutation_map f) in Hrest. rewrite map_app in Hrest.
    apply (Permutation_NoDup (Permutation_sym Hrest)) in Hnd.
    now apply NoDup_app_remove_r in Hnd. }
  intros Hst. split; [now apply sort_values_desc_ties|].
  rewrite topN_again by assumption.
  apply sort_values_desc_id; [assumption|apply topN_sorted].
Qed.
End TopN.

Lemma topN_witness :
  (2 <= 10)%nat
  /\ (List.length (topN argsort_stable sales_of 2 tied_result) <= 2)%nat
  /\ StronglySorted (desc_by sales_of) (topN argsort_stable sales_of 2 tied_result)
  /\ topN argsort_stable sales_of 10 (topN argsort_stable sales_of 2 tied_result)
     = topN argsort_stable sales_of 2 tied_result.
Proof.
  assert (Hnm : (2 <= 10)%nat) by lia.
  pose proof (topN_keeps_the_largest_in_descending_order
                argsort_stable argsort_stable_perm argsort_stable_sorted
                sales_of 2 10 tied_result Hnm) as T.
  destruct T as (T1 & T2 & _ & _ & _ & _ & T7).
  destruct (T7 (argsort_stable_ties sales_of)) as [_ T8].
  repeat split; assumption.
Defined.

(** ** Months *)

Lemma to_period_to_timestamp (p : Period) : to_period_M (to_timestamp p) = p.
Proof.
  unfold to_period_M, to_timestamp. cbn [ts_year ts_month].
  pose proof (Z.div_mod p 12 ltac:(lia)). lia.
Qed.

Lemma to_timestamp_lt (p q : Period) :
  p < q -> ts_lt (to_timestamp p) (to_timestamp q).
Proof.
  intros Hpq. unfold ts_lt, to_timestamp, ts_fields.
  cbn [ts_year ts_month ts_day ts_hour ts_minute ts_second list_cmp].
  pose proof (Z.div_mod p 12 ltac:(lia)).
  pose proof (Z.div_mod q 12 ltac:(lia)).
  pose proof (Z.mod_pos_bound p 12 ltac:(lia)).
  pose proof (Z.mod_pos_bound q 12 ltac:(lia)).
  destruct (Z.compare_spec (1970 + p / 12) (1970 + q / 12)) as [E|E|E].
  - destruct (Z.compare_spec (p mod 12 + 1) (q mod 12 + 1)); [lia|reflexivity|lia].
  - reflexivity.
  - lia.
Qed.

Lemma ts_lt_irrefl (t : Timestamp) : ~ ts_lt t t.
Proof.
  unfold ts_lt. change Z.compare with (@cmp Z _).
  rewrite list_cmp_refl. discriminate.
Qed.

Lemma is_some_option_map {A B : Type} (g : A -> B) (o : option A) :
  is_some (option_map g o) = is_some o.
Proof. now destruct o. Qed.

Lemma keyed_rows_boolean_index {K R : Type} (ks : list (option K)) (rows : list R) :
  map snd (filter (fun x => is_some (fst x)) (combine ks rows))
  = boolean_index (map is_some ks) rows.
Proof.
  revert rows. induction ks as [|k ks IH]; intros [|r rows]; simpl;
    try reflexivity.
  destruct k; simpl; now rewrite IH.
Qed.

Lemma month_groups_keys (dates : list (option Timestamp)) (d : Dataset)
  (fields : list NumField) :
  map fst (monthlyAggregate dates d fields)
  = map to_timestamp (map fst (month_groups dates d)).
Proof. unfold monthlyAggregate. now rewrite !map_map. Qed.

Lemma month_groups_sorted (dates : list (option Timestamp)) (d : Dataset) :
  StronglySorted Z.lt (map fst (month_groups dates d)).
Proof.
  unfold month_groups. rewrite groupby_keys.
  eapply StronglySorted_weaken; [|apply group_keys_sorted].
  intros a b Hab. unfold key_lt in Hab. simpl in Hab.
  now apply Z.compare_lt_iff.
Qed.

(** The rows in the month buckets are the rows whose date is not NaT. *)
Lemma month_groups_partition (dates : list (option Timestamp)) (d : Dataset) :
  Permutation
    (List.concat (map (fun g => map snd (snd g)) (month_groups dates d)))
    (boolean_index (map is_some dates) d).
Proof.
  unfold month_groups.
  pose proof (groupby_partition (K := Period) fst
                (combine (dt_to_period_M dates) d)) as HP.
  apply (Permutation_map snd) in HP.
  rewrite concat_map, map_map, keyed_rows_boolean_index in HP.
  unfold dt_to_period_M in HP. rewrite map_map in HP.
  erewrite (map_ext _ is_some) in HP by (intros; apply is_some_option_map).
  exact HP.
Qed.

(** ** The script, step by step *)

Lemma tab_sales_result (P : DateParser) (s : App) :
  fst (tab_sales P s)
  = monthlyAggregate
      (to_datetime_coerce P (map order_date_DateOrders (df_rows (app_df s))))
      (df_rows (app_df s)) [FSales; FOrderProfitPerOrder].
Proof. reflexivity. Qed.

Lemma tab_sales_df (P : DateParser) (s : App) :
  app_df (snd (tab_sales P s))
  = mkDataFrame (df_rows (app_df s))
      (Some (to_datetime_coerce P (map order_date_DateOrders (df_rows (app_df s))))).
Proof. reflexivity. Qed.

Lemma tab_overview_df (s : App) : app_df (snd (tab_overview s)) = app_df s.
Proof. reflexivity. Qed.

Lemma tab_shipping_df (index : nat) (s : App) :
  app_df (snd (tab_shipping index s)) = app_df s.
Proof. reflexivity. Qed.

Lemma tab_geo_df (s : App) : app_df (snd (tab_geo s)) = app_df s.
Proof.
  unfold tab_geo, uncaught, bind, emit, read_df, ret. cbn [fst snd app_df].
  destruct (size_ok 1 _); reflexivity.
Qed.

Lemma tab_customer_df (s : App) : app_df (snd (tab_customer s)) = app_df s.
Proof. reflexivity. Qed.

Lemma tab_product_df (argsort : ArgSort GroupRow) (s : App) :
  app_df (snd (tab_product argsort s)) = app_df s.
Proof.
  unfold tab_product, uncaught, bind, emit, read_df, ret. cbn [fst snd app_df].
  destruct (size_ok 0 _); reflexivity.
Qed.

Lemma df_filterByValue_rows (df : DataFrame) (f : CatField) (v : option string) :
  df_rows (df_filterByValue df f v) = filterByValue (df_rows df) f v.
Proof. reflexivity. Qed.

Lemma tab_shipping_result (index : nat) (s : App) :
  df_rows (fst (tab_shipping index s))
  = filterByValue (df_rows (app_df s)) FShippingMode
      (match nth_error (Series_unique (column_cat FShippingMode (df_rows (app_df s))))
                       index with
       | Some v => v
       | None => None
       end).
Proof. reflexivity. Qed.

Lemma tab_shipping_alerts (index : nat) (s : App) :
  filter is_alert (app_page (snd (tab_shipping index s)))
  = filter is_alert (app_page s).
Proof.
  unfold tab_shipping, selectbox, bind, emit, read_df, ret. simpl.
  rewrite !filter_app. simpl. now rewrite !app_nil_r.
Qed.

Lemma to_datetime_coerce_length (P : DateParser) (s : list (option string)) :
  List.length (to_datetime_coerce P s) = List.length s.
Proof. unfold to_datetime_coerce. apply length_map. Qed.

Lemma tab_product_result (argsort : ArgSort GroupRow) (s : App) :
  fst (tab_product argsort s)
  = topN argsort sales_of 10
      (groupReduce (df_rows (app_df s)) [FProductName] [FSales]).
Proof.
  unfold tab_product, uncaught, bind, emit, read_df, ret. cbn [fst snd app_df].
  destruct (size_ok 0 _); reflexivity.
Qed.

(** Whether or not a tab after it raises, a run leaves the frame as the
    Sales & Profit tab made it. *)
Lemma run_df (P : DateParser) (argsort : ArgSort GroupRow) (index : nat)
  (D : Dataset) :
  app_df (run P argsort index D)
  = mkDataFrame D (Some (to_datetime_coerce P (map order_date_DateOrders D))).
Proof.
  unfold run, app_py.
  set (s0 := mkApp (read_csv D) []).
  unfold bind at 1. destruct (emit Title s0) as [u1 s1] eqn:E1.
  assert (H1 : app_df s1 = read_csv D) by (inversion E1; reflexivity).
  unfold bind at 1. destruct (emit Markdown s1) as [u2 s2] eqn:E2.
  assert (H2 : app_df s2 = read_csv D) by (inversion E2; exact H1).
  unfold bind at 1. destruct (tab_overview s2) as [u3 s3] eqn:E3.
  assert (H3 : app_df s3 = read_csv D).
  { rewrite <- H2, <- (tab_overview_df s2). now rewrite E3. }
  unfold bind at 1. destruct (tab_shipping index s3) as [u4 s4] eqn:E4.
  assert (H4 : app_df s4 = read_csv D).
  { rewrite <- H3, <- (tab_shipping_df index s3). now rewrite E4. }
  unfold bind at 1. destruct (tab_sales P s4) as [u5 s5] eqn:E5.
  assert (H5 : app_df s5
               = mkDataFrame D
                   (Some (to_datetime_coerce P (map order_date_DateOrders D)))).
  { pose proof (tab_sales_df P s4) as T. rewrite E5, H4 in T. exact T. }
  unfold bind at 1. destruct (tab_geo s5) as [completed s6] eqn:E6.
  assert (H6 : app_df s6 = app_df s5).
  { rewrite <- (tab_geo_df s5). now rewrite E6. }
  destruct completed; [|cbn [ret snd]; congruence].
  unfold bind at 1. destruct (tab_customer s6) as [u7 s7] eqn:E7.
  assert (H7 : app_df s7 = app_df s6).
  { rewrite <- (tab_customer_df s6). now rewrite E7. }
  unfold bind at 1. destruct (tab_product argsort s7) as [u8 s8] eqn:E8.
  assert (H8 : app_df s8 = app_df s7).
  { rewrite <- (tab_product_df argsort s7). now rewrite E8. }
  cbn [ret snd]. congruence.
Qed.

(** ** C4: the month buckets are in chronological order *)

(** C4. For every Dataset and every column of dates, the buckets of
    [monthlyAggregate] come in strictly increasing chronological order, so no
    month occurs twice; each bucket is labelled with the first instant of its
    month. The same holds for the table the Sales & Profit tab draws. *)
Theorem monthlyAggregate_strictly_chronological
  (dates : list (option Timestamp)) (D : Dataset) (valueFields : list NumField) :
  StronglySorted ts_lt (map fst (monthlyAggregate dates D valueFields))
  /\ NoDup (map fst (monthlyAggregate dates D valueFields))
  /\ map to_period_M (map fst (monthlyAggregate dates D valueFields))
     = map fst (month_groups dates D)
  /\ forall P s, StronglySorted ts_lt (map fst (fst (tab_sales P s))).
Proof.
  assert (Hs : forall dates D valueFields,
             StronglySorted ts_lt (map fst (monthlyAggregate dates D valueFields))).
  { intros dates' D' fields'. rewrite month_groups_keys.
    eapply StronglySorted_map; [|apply month_groups_sorted].
    apply to_timestamp_lt. }
  split; [apply Hs|]. split; [|split].
  - specialize (Hs dates D valueFields).
    induction Hs as [|t l Hl IH Hall]; constructor; [|assumption].
    intros Ht. rewrite Forall_forall in Hall.
    exact (ts_lt_irrefl _ (Hall _ Ht)).
  - rewrite month_groups_keys, map_map.
    erewrite map_ext; [apply map_id|]. apply to_period_to_timestamp.
  - intros P s. rewrite tab_sales_result. apply Hs.
Qed.

(** ** Dates that cannot be read: an example *)

Example monthlyAggregate_skips_unreadable_date :
  to_datetime_coerce tiny_parser (map order_date_DateOrders nan_mode_sample)
  = [Some (mkTimestamp 2015 1 1 0 0 0); None]
  /\ fst (tab_sales tiny_parser (mkApp (read_csv nan_mode_sample) []))
     = [(mkTimestamp 2015 1 1 0 0 0, [100; 10])].
Proof. split; reflexivity. Qed.

(** ** C5: what the script does to the global frame *)

(** C5 (as amended). In one run of the script, the shipping filter and every
    tab other than Sales & Profit leave the global frame as it is; the
    Sales & Profit tab keeps the rows (the same records in the same order) and
    the columns of the file, and adds one column, [order_date], holding the
    converted dates. After a run the frame is the loaded one plus that
    column. *)
Theorem script_only_adds_order_date
  (P : DateParser) (argsort : ArgSort GroupRow) (index : nat) (s : App) :
  app_df (snd (tab_overview s)) = app_df s
  /\ app_df (snd (tab_shipping index s)) = app_df s
  /\ app_df (snd (tab_geo s)) = app_df s
  /\ app_df (snd (tab_customer s)) = app_df s
  /\ app_df (snd (tab_product argsort s)) = app_df s
  /\ df_rows (app_df (snd (tab_sales P s))) = df_rows (app_df s)
  /\ df_order_date (app_df (snd (tab_sales P s)))
     = Some (to_datetime_coerce P (map order_date_DateOrders (df_rows (app_df s))))
  /\ df_columns (app_df (snd (tab_sales P s))) = csv_columns ++ ["order_date"%string]
  /\ forall D,
       app_df (run P argsort index D)
       = mkDataFrame D (Some (to_datetime_coerce P (map order_date_DateOrders D))).
Proof.
  split; [apply tab_overview_df|].
  split; [apply tab_shipping_df|].
  split; [apply tab_geo_df|].
  split; [apply tab_customer_df|].
  split; [apply tab_product_df|].
  rewrite tab_sales_df. cbn [df_rows df_order_date]. unfold df_columns.
  cbn [df_order_date]. repeat split. apply run_df.
Qed.

(** C5 (as stated) fails: after the Sales & Profit tab the global frame has a
    column it did not have when it was loaded. *)
Lemma sales_tab_mutates_frame :
  df_columns (read_csv geo_sample) = csv_columns
  /\ df_columns (app_df (snd (tab_sales no_parser (mkApp (read_csv geo_sample) []))))
     = csv_columns ++ ["order_date"%string]
  /\ app_df (snd (tab_sales no_parser (mkApp (read_csv geo_sample) [])))
     <> read_csv geo_sample.
Proof.
  split; [reflexivity|]. split; [reflexivity|]. discriminate.
Qed.

(** ** C8: a filter that matches nothing *)

Lemma boolean_index_none {A : Type} (mask : list bool) (rows : list A) :
  existsb (fun b => b) mask = false -> boolean_index mask rows = [].
Proof.
  revert rows. induction mask as [|b m IH]; intros [|r t]; simpl;
    try reflexivity.
  destruct b; simpl; [discriminate|]. apply IH.
Qed.

(** C8 (as amended). For every Dataset [D], field and value [v] that
    matches no row: [filterByValue] yields the empty Dataset; the metrics
    computed from it are 0 orders, 0 customers, total sales 0 and an absent
    mean, without failure; and nothing is signalled: the Shipping & Delivery
    tab puts no alert on the page. *)
Theorem empty_filter_result_is_silent
  (D : Dataset) (field : CatField) (v : option string)
  (Hnone : existsb (fun b => b) (Series_eq (column_cat field D) v) = false) :
  filterByValue D field v = []
  /\ computeSnapshot (filterByValue D field v) = mkMetricSnapshot 0 0 0 None
  /\ forall index s,
       filter is_alert (app_page (snd (tab_shipping index s)))
       = filter is_alert (app_page s).
Proof.
  assert (E : filterByValue D field v = [])
    by (apply boolean_index_none, Hnone).
  rewrite E. repeat split. apply tab_shipping_alerts.
Qed.

Lemma empty_filter_result_witness :
  existsb (fun b => b)
    (Series_eq (column_cat FShippingMode category_sample) (Some "Second Class"%string))
  = false
  /\ filterByValue category_sample FShippingMode (Some "Second Class"%string) = []
  /\ computeSnapshot
       (filterByValue category_sample FShippingMode (Some "Second Class"%string))
     = mkMetricSnapshot 0 0 0 None.
Proof.
  assert (Hnone : existsb (fun b => b)
            (Series_eq (column_cat FShippingMode category_sample)
                       (Some "Second Class"%string)) = false) by reflexivity.
  pose proof (empty_filter_result_is_silent category_sample FShippingMode
                (Some "Second Class"%string) Hnone) as T.
  destruct T as (T1 & T2 & _). repeat split; assumption.
Defined.

(** C8 (as stated) fails: when the selected shipping mode matches no row the
    filtered Dataset is empty and the page carries no alert; the script has
    no warning to give. *)
Lemma empty_filter_result_gives_no_warning :
  df_rows (fst (tab_shipping 0 (mkApp (read_csv nan_mode_sample) []))) = []
  /\ existsb is_alert
       (app_page (snd (tab_shipping 0 (mkApp (read_csv nan_mode_sample) []))))
     = false
  /\ existsb is_alert
       (app_page (run tiny_parser argsort_stable 0 nan_mode_sample)) = false.
Proof. repeat split. Qed.

(** ** C9: the values offered by the select box *)

Lemma filterByValue_nonempty (D : Dataset) (f : CatField) (v : string) :
  In (Some v) (column_cat f D) -> filterByValue D f (Some v) <> [].
Proof.
  intros Hv. unfold column_cat in Hv. apply in_map_iff in Hv.
  destruct Hv as [r [E Hr]]. intros Hnil.
  assert (Hin : In r (filterByValue D f (Some v))).
  { rewrite filterByValue_filter. apply filter_In. split; [assumption|].
    apply cell_eq_true. eauto. }
  rewrite Hnil in Hin. inversion Hin.
Qed.

Lemma filterByValue_nan (D : Dataset) (f : CatField) : filterByValue D f None = [].
Proof.
  rewrite filterByValue_filter. induction D as [|r D IH]; simpl; [reflexivity|].
  destruct (get_cat f r); exact IH.
Qed.

(** C9 (as amended). The value the select box returns is one of the values
    of the Shipping Mode column, NaN included when a cell is NaN. When the
    value picked is a present one, the filtered Dataset of the
    Shipping & Delivery tab has at least one row; when it is NaN, the
    filtered Dataset is empty. *)
Theorem shipping_choice_is_a_column_value
  (D : Dataset) (index : nat) (page : list Element) (o : option string)
  (Hpick : nth_error (Series_unique (column_cat FShippingMode D)) index = Some o) :
  In o (column_cat FShippingMode D)
  /\ df_rows (fst (tab_shipping index (mkApp (read_csv D) page)))
     = filterByValue D FShippingMode o
  /\ (o <> None ->
      df_rows (fst (tab_shipping index (mkApp (read_csv D) page))) <> [])
  /\ (o = None ->
      df_rows (fst (tab_shipping index (mkApp (read_csv D) page))) = []).
Proof.
  assert (Hin : In o (column_cat FShippingMode D)).
  { apply nth_error_In in Hpick. unfold Series_unique in Hpick.
    exact (proj1 (unique_In _ opt_eqb_string_spec _ _) Hpick). }
  assert (E : df_rows (fst (tab_shipping index (mkApp (read_csv D) page)))
              = filterByValue D FShippingMode o).
  { rewrite tab_shipping_result. simpl. now rewrite Hpick. }
  rewrite E. split; [exact Hin|]. split; [reflexivity|]. split.
  - destruct o as [v|]; [|congruence]. intros _.
    now apply filterByValue_nonempty.
  - intros ->. apply filterByValue_nan.
Qed.

Lemma shipping_choice_witness :
  nth_error (Series_unique (column_cat FShippingMode category_sample)) 1
  = Some (Some "Same Day"%string)
  /\ df_rows (fst (tab_shipping 1 (mkApp (read_csv category_sample) []))) <> [].
Proof.
  assert (Hpick : nth_error (Series_unique (column_cat FShippingMode category_sample)) 1
                  = Some (Some "Same Day"%string)) by reflexivity.
  pose proof (shipping_choice_is_a_column_value category_sample 1 []
                (Some "Same Day"%string) Hpick) as T.
  destruct T as (_ & _ & T3 & _).
  split; [exact Hpick|]. apply T3. discriminate.
Defined.

(** C9 (as stated) fails: a Dataset whose first order has no shipping mode is
    not empty, NaN is the value the select box offers first, and with it the
    filtered Dataset has no row. *)
Lemma shipping_choice_nan_gives_empty :
  nan_mode_sample <> []
  /\ Series_unique (column_cat FShippingMode nan_mode_sample)
     = [None; Some "Standard Class"%string]
  /\ df_rows (fst (tab_shipping 0 (mkApp (read_csv nan_mode_sample) []))) = [].
Proof. split; [discriminate|]. split; reflexivity. Qed.

(** * Further properties of the script *)

(** ** Counting distinct identifiers *)

Lemma Series_count_dropna {A : Type} (s : list (option A)) :
  Series_count s = List.length (dropna s).
Proof.
  unfold Series_count. induction s as [|[v|] s IH]; simpl; congruence.
Qed.

Lemma Series_count_le {A : Type} (s : list (option A)) :
  (Series_count s <= List.length s)%nat.
Proof. unfold Series_count. apply filter_length_le. Qed.

Lemma unique_from_length {A : Type} (eqb : A -> A -> bool) (seen s : list A) :
  (List.length (unique_from eqb seen s) <= List.length s)%nat.
Proof.
  revert seen. induction s as [|x s IH]; intros seen; simpl; [lia|].
  destruct (existsb (eqb x) seen); simpl.
  - specialize (IH seen). lia.
  - specialize (IH (x :: seen)). lia.
Qed.

Lemma Z_eqb_spec (a b : Z) : (a =? b) = true <-> a = b.
Proof. apply Z.eqb_eq. Qed.

(** The distinct present values, whatever list enumerates them. *)
Lemma Series_nunique_char (s : list (option Z)) (l : list Z) :
  NoDup l -> (forall x, In x l <-> In (Some x) s) ->
  Series_nunique s = List.length l.
Proof.
  intros Hnd Hl. unfold Series_nunique. apply Permutation_length.
  apply NoDup_Permutation; [apply (unique_NoDup _ Z_eqb_spec)|assumption|].
  intros x. now rewrite (unique_In _ Z_eqb_spec), dropna_In, Hl.
Qed.

Lemma Series_nunique_perm (s t : list (option Z)) :
  Permutation s t -> Series_nunique s = Series_nunique t.
Proof.
  intros HP. apply Series_nunique_char; [apply (unique_NoDup _ Z_eqb_spec)|].
  intros x. rewrite (unique_In _ Z_eqb_spec), dropna_In. split; intros Hx.
  - exact (Permutation_in _ (Permutation_sym HP) Hx).
  - exact (Permutation_in _ HP Hx).
Qed.

(** X1. The number of distinct orders and of distinct customers shown by
    the overview counts every present identifier once: it is the length of
    any duplicate-free list of the identifiers that occur; rows without an
    identifier are not counted, and the number is at most the number of rows
    that have one. *)
Theorem nunique_counts_each_present_id_once (D : Dataset) :
  (forall l, NoDup l -> (forall x, In x l <-> exists r, In r D /\ Order_Id r = Some x) ->
             totalOrders (computeSnapshot D) = List.length l)
  /\ (forall l, NoDup l ->
                (forall x, In x l <-> exists r, In r D /\ Customer_Id r = Some x) ->
                uniqueCustomers (computeSnapshot D) = List.length l)
  /\ (totalOrders (computeSnapshot D)
      <= Series_count (column_num FOrderId D) <= List.length D)%nat
  /\ (uniqueCustomers (computeSnapshot D)
      <= Series_count (column_num FCustomerId D) <= List.length D)%nat.
Proof.
  assert (Hbound : forall f,
             (Series_nunique (column_num f D) <= Series_count (column_num f D)
              <= List.length D)%nat).
  { intros f. split.
    - rewrite Series_count_dropna. apply unique_from_length.
    - rewrite <- (length_map (get_num f) D). apply Series_count_le. }
  assert (Hchar : forall f l, NoDup l ->
             (forall x, In x l <-> exists r, In r D /\ get_num f r = Some x) ->
             Series_nunique (column_num f D) = List.length l).
  { intros f l Hnd Hl. apply Series_nunique_char; [assumption|].
    intros x. rewrite Hl. unfold column_num. rewrite in_map_iff.
    split; intros [r [H1 H2]]; exists r; tauto. }
  split; [exact (Hchar FOrderId)|].
  split; [exact (Hchar FCustomerId)|].
  split; [exact (Hbound FOrderId)|exact (Hbound FCustomerId)].
Qed.

(** X2. The numbers of distinct orders and of distinct customers shown by
    the overview do not depend on the order of the rows of the Dataset. *)
Theorem distinct_counts_order_independent (D D' : Dataset)
  (HP : Permutation D D') :
  totalOrders (computeSnapshot D) = totalOrders (computeSnapshot D')
  /\ uniqueCustomers (computeSnapshot D) = uniqueCustomers (computeSnapshot D').
Proof.
  cbn [totalOrders uniqueCustomers computeSnapshot]. unfold column_num. split.
  - exact (Series_nunique_perm _ _ (Permutation_map (get_num FOrderId) HP)).
  - exact (Series_nunique_perm _ _ (Permutation_map (get_num FCustomerId) HP)).
Qed.

Lemma distinct_counts_order_independent_witness :
  Permutation category_sample (rev category_sample)
  /\ totalOrders (computeSnapshot category_sample)
     = totalOrders (computeSnapshot (rev category_sample)).
Proof.
  assert (HP : Permutation category_sample (rev category_sample))
    by apply Permutation_rev.
  split; [exact HP|].
  exact (proj1 (distinct_counts_order_independent _ _ HP)).
Defined.

(** ** The options of the select box *)

Section UniqueOrder.
Context {A : Type} (eqb : A -> A -> bool).
Hypothesis eqb_spec : forall a b, eqb a b = true <-> a = b.

Lemma unique_from_seen_ext (seen seen' t : list A) :
  (forall z, In z seen <-> In z seen') ->
  unique_from eqb seen t = unique_from eqb seen' t.
Proof.
  revert seen seen'. induction t as [|x t IH]; intros seen seen' Hs; simpl;
    [reflexivity|].
  assert (E : existsb (eqb x) seen = existsb (eqb x) seen').
  { apply Bool.eq_iff_eq_true.
    now rewrite !(existsb_eqb_In eqb eqb_spec), Hs. }
  rewrite E. destruct (existsb (eqb x) seen'); [now apply IH|].
  f_equal. apply IH. intros z. simpl. now rewrite Hs.
Qed.

Lemma eqb_sym (a b : A) : eqb a b = eqb b a.
Proof.
  apply Bool.eq_iff_eq_true. rewrite !eqb_spec. split; congruence.
Qed.

Lemma unique_from_cons_seen (x : A) (seen t : list A) :
  unique_from eqb (x :: seen) t
  = filter (fun y => negb (eqb x y)) (unique_from eqb seen t).
Proof.
  revert seen. induction t as [|y t IH]; intros seen; [reflexivity|].
  cbn [unique_from existsb].
  destruct (existsb (eqb y) seen) eqn:Es.
  - rewrite Bool.orb_true_r. apply IH.
  - rewrite Bool.orb_false_r. cbn [filter]. rewrite (eqb_sym x y).
    destruct (eqb y x) eqn:Eyx; cbn [negb].
    + apply eqb_spec in Eyx. subst y.
      rewrite (IH seen). symmetry. apply filter_idem.
    + f_equal. rewrite <- IH. apply unique_from_seen_ext.
      intros z. simpl. tauto.
Qed.

(** A value is kept where it first occurs. *)
Lemma unique_cons (x : A) (t : list A) :
  unique eqb (x :: t) = x :: filter (fun y => negb (eqb x y)) (unique eqb t).
Proof.
  unfold unique. cbn [unique_from existsb]. f_equal.
  apply unique_from_cons_seen.
Qed.
End UniqueOrder.

(** Filters by values of a duplicate-free list, one after the other. *)
Lemma concat_filters_perm {K A : Type} (p : K -> A -> bool) (ks : list K)
  (rows : list A) :
  NoDup ks ->
  (forall r k k', p k r = true -> p k' r = true -> k = k') ->
  Permutation (List.concat (map (fun k => filter (p k) rows) ks))
              (filter (fun r => existsb (fun k => p k r) ks) rows).
Proof.
  intros Hnd Hp. induction Hnd as [|k t Hn Hnd IH]; simpl.
  - induction rows; simpl; auto.
  - rewrite IH. apply filter_disjoint_perm.
    intros r _ Hr. apply not_true_is_false. rewrite existsb_exists.
    intros [k' [Hk' Hr']]. rewrite (Hp r k k' Hr Hr') in Hn. tauto.
Qed.

(** X4. The select box offers every value of the Shipping Mode column once,
    in the order in which the values first occur in the Dataset (NaN too,
    when a cell is NaN): a value is offered exactly when some row has it, no
    value is offered twice, the option shown first is the shipping mode of
    the first row, and the options of a Dataset with one more row in front
    are that row's value followed by the other options without it. *)
Theorem shipping_options_are_distinct_values_in_first_seen_order
  (D : Dataset) (page : list Element) (index : nat) :
  let options := Series_unique (column_cat FShippingMode D) in
  In (Selectbox "Filter by Shipping Mode" options)
     (app_page (snd (tab_shipping index (mkApp (read_csv D) page))))
  /\ NoDup options
  /\ (forall o, In o options <-> exists r, In r D /\ Shipping_Mode r = o)
  /\ hd_error options = hd_error (column_cat FShippingMode D)
  /\ (List.length options <= List.length D)%nat
  /\ forall r,
       Series_unique (column_cat FShippingMode (r :: D))
       = Shipping_Mode r
         :: filter (fun o => negb (opt_eqb String.eqb (Shipping_Mode r) o)) options.
Proof.
  intros options. split.
  { unfold tab_shipping, selectbox, bind, emit, read_df, ret. simpl.
    rewrite !in_app_iff. simpl. tauto. }
  split; [apply (unique_NoDup _ opt_eqb_string_spec)|].
  split.
  { intros o. unfold options, Series_unique.
    rewrite (unique_In _ opt_eqb_string_spec). unfold column_cat.
    rewrite in_map_iff. cbn [get_cat].
    split; intros [r [H1 H2]]; exists r; tauto. }
  split; [unfold options, Series_unique; now destruct D|].
  split.
  { unfold options, Series_unique, unique.
    rewrite <- (length_map (get_cat FShippingMode) D). apply unique_from_length. }
  intros r. unfold options, Series_unique. cbn [column_cat map].
  apply (unique_cons _ opt_eqb_string_spec).
Qed.

Lemma cell_eq_functional (c v w : option string) :
  cell_eq c v = true -> cell_eq c w = true -> v = w.
Proof.
  rewrite !cell_eq_true. intros [s [H1 H2]] [s' [H3 H4]]. congruence.
Qed.

(** X5. Going through the options of the select box shows every row that
    has a shipping mode exactly once: the filtered Datasets of the options
    together are the rows of the Dataset whose Shipping Mode is present, and
    a row without one is shown under no option. *)
Theorem shipping_options_partition_rows_with_a_mode (D : Dataset) :
  Permutation
    (List.concat (map (fun o => filterByValue D FShippingMode o)
                      (Series_unique (column_cat FShippingMode D))))
    (filter (fun r => is_some (Shipping_Mode r)) D).
Proof.
  erewrite map_ext by (intros o; apply filterByValue_filter).
  rewrite (concat_filters_perm (fun o r => cell_eq (get_cat FShippingMode r) o)).
  - erewrite filter_ext_in; [reflexivity|]. intros r Hr. cbn [get_cat].
    destruct (Shipping_Mode r) as [m|] eqn:E; cbn [is_some].
    + apply existsb_exists. exists (Some m). split.
      * unfold Series_unique. apply (unique_In _ opt_eqb_string_spec).
        unfold column_cat. apply in_map_iff. exists r. now split.
      * apply cell_eq_true. eauto.
    + apply not_true_is_false. rewrite existsb_exists.
      intros [o [_ Ho]]. apply cell_eq_true in Ho.
      destruct Ho as [s [Hs _]]. discriminate.
  - apply (unique_NoDup _ opt_eqb_string_spec).
  - intros r k k'. apply cell_eq_functional.
Qed.

(** ** Filters compose *)

Lemma filter_comm {A : Type} (p q : A -> bool) (l : list A) :
  filter p (filter q l) = filter q (filter p l).
Proof.
  induction l as [|x l IH]; simpl; [reflexivity|].
  destruct (p x) eqn:Ep, (q x) eqn:Eq; simpl; rewrite ?Ep, ?Eq, IH; reflexivity.
Qed.

(** X6. Filters by value compose: two filters, on the same or on different
    fields, can be applied in either order; filtering a filtered Dataset by
    another value of the same field leaves no row; the filter of a
    concatenation is the concatenation of the filters; and a filter never
    returns more rows than it is given. *)
Theorem filterByValue_composes
  (D D' : Dataset) (f g : CatField) (v w : option string) :
  filterByValue (filterByValue D f v) g w = filterByValue (filterByValue D g w) f v
  /\ (v <> w -> filterByValue (filterByValue D f v) f w = [])
  /\ filterByValue (D ++ D') f v = filterByValue D f v ++ filterByValue D' f v
  /\ (List.length (filterByValue D f v) <= List.length D)%nat.
Proof.
  rewrite !filterByValue_filter. split; [apply filter_comm|].
  split; [|split; [apply filter_app|apply filter_length_le]].
  intros Hvw. induction D as [|r D IH]; simpl; [reflexivity|].
  destruct (cell_eq (get_cat f r) v) eqn:Ev; [|exact IH].
  simpl. destruct (cell_eq (get_cat f r) w) eqn:Ew; [|exact IH].
  elim Hvw. exact (cell_eq_functional _ _ _ Ev Ew).
Qed.

(** ** The shape of a grouped table *)

Lemma row_key_length (K : list CatField) (r : Row) (k : list string) :
  row_key K r = Some k -> List.length k = List.length K.
Proof.
  intros Hk. apply row_key_values in Hk.
  apply (f_equal (@List.length _)) in Hk. rewrite !length_map in Hk. congruence.
Qed.

Lemma dropna_length {A : Type} (s : list (option A)) :
  (List.length (dropna s) <= List.length s)%nat.
Proof. induction s as [|[v|] s IH]; simpl; lia. Qed.

Lemma group_keys_length {K R : Type} `{OrdLaws K} (key : R -> option K)
  (rows : list R) :
  (List.length (group_keys key rows) <= List.length rows)%nat.
Proof.
  unfold group_keys. rewrite (Permutation_length (sort_keys_perm _)).
  unfold unique.
  pose proof (unique_from_length key_eqb [] (dropna (map key rows))).
  pose proof (dropna_length (map key rows)). rewrite length_map in *. lia.
Qed.

(** X9. A grouped table is rectangular and no longer than the Dataset:
    every row of [groupReduce] has one key value per key field and one sum
    per summed field, there are at most as many rows as the Dataset has, and
    none at all for an empty Dataset. *)
Theorem groupReduce_shape
  (D : Dataset) (K : list CatField) (fields : list NumField) :
  (forall k sums, In (k, sums) (groupReduce D K fields) ->
     List.length k = List.length K /\ List.length sums = List.length fields)
  /\ (List.length (groupReduce D K fields) <= List.length D)%nat
  /\ groupReduce [] K fields = [].
Proof.
  split; [|split; [|reflexivity]].
  - intros k sums Hin. unfold groupReduce in Hin. apply in_map_iff in Hin.
    destruct Hin as [[k' g] [E Hg]]. cbn [fst snd] in E. inversion E; subst.
    split; [|unfold agg_sum; apply length_map].
    apply groupby_In in Hg. destruct Hg as [Hk _].
    apply group_keys_In in Hk. destruct Hk as [r [_ Hr]].
    exact (row_key_length _ _ _ Hr).
  - unfold groupReduce, groupby. rewrite !length_map. apply group_keys_length.
Qed.

(** ** Grouped tables do not depend on the order of the rows *)

Section SortedKeys.
Context {K : Type} `{OrdLaws K}.

(** Strictly increasing lists with the same elements are the same list. *)
Lemma sorted_lt_unique (l1 l2 : list K) :
  StronglySorted key_lt l1 -> StronglySorted key_lt l2 ->
  (forall x, In x l1 <-> In x l2) -> l1 = l2.
Proof.
  intros H1. revert l2. induction H1 as [|a t1 Hs1 IH Ha]; intros l2 H2 Hin.
  - destruct l2 as [|b t2]; [reflexivity|].
    destruct (proj2 (Hin b) (or_introl eq_refl)).
  - destruct H2 as [|b t2 Hs2 Hb].
    + destruct (proj1 (Hin a) (or_introl eq_refl)).
    + rewrite Forall_forall in Ha, Hb.
      assert (Eab : a = b).
      { destruct (proj1 (Hin a) (or_introl eq_refl)) as [E|Hat2]; [now symmetry|].
        destruct (proj2 (Hin b) (or_introl eq_refl)) as [E|Hbt1]; [assumption|].
        exfalso. apply (key_lt_irrefl a).
        exact (key_lt_trans _ _ _ (Ha _ Hbt1) (Hb _ Hat2)). }
      subst b. f_equal. apply IH; [assumption|].
      intros x. split; intros Hx.
      * destruct (proj1 (Hin x) (or_intror Hx)) as [E|Hx2]; [|assumption].
        subst x. exfalso. exact (key_lt_irrefl _ (Ha _ Hx)).
      * destruct (proj2 (Hin x) (or_intror Hx)) as [E|Hx1]; [|assumption].
        subst x. exfalso. exact (key_lt_irrefl _ (Hb _ Hx)).
Qed.

Lemma group_keys_perm {R : Type} (key : R -> option K) (rows rows' : list R) :
  Permutation rows rows' -> group_keys key rows = group_keys key rows'.
Proof.
  intros HP. apply sorted_lt_unique; try apply group_keys_sorted.
  intros k. rewrite !group_keys_In. split; intros [r [Hr E]]; exists r;
    (split; [|assumption]).
  - exact (Permutation_in _ HP Hr).
  - exact (Permutation_in _ (Permutation_sym HP) Hr).
Qed.
End SortedKeys.

Lemma filter_perm {A : Type} (p : A -> bool) (l l' : list A) :
  Permutation l l' -> Permutation (filter p l) (filter p l').
Proof.
  induction 1 as [|x l l' HP IH|x y l|l l' l'' H1 IH1 H2 IH2]; simpl.
  - constructor.
  - destruct (p x); [now constructor|assumption].
  - destruct (p x), (p y); try reflexivity. apply perm_swap.
  - now transitivity (filter p l').
Qed.

(** X10. The keys of a grouped table and the rows behind them do not depend
    on the order of the rows of the Dataset: rearranging the rows changes
    neither the keys nor their order, and every group keeps the same rows. *)
Theorem groupReduce_keys_order_independent
  (D D' : Dataset) (K : list CatField) (fields : list NumField)
  (HP : Permutation D D') :
  map fst (groupReduce D K fields) = map fst (groupReduce D' K fields)
  /\ List.length (groupReduce D K fields) = List.length (groupReduce D' K fields)
  /\ (forall k g g', In (k, g) (groups_of D K) -> In (k, g') (groups_of D' K) ->
                     Permutation g g').
Proof.
  assert (Ek : map fst (groupReduce D K fields) = map fst (groupReduce D' K fields)).
  { rewrite !groupReduce_keys. unfold groups_of. rewrite !groupby_keys.
    now apply group_keys_perm. }
  split; [exact Ek|]. split.
  - apply (f_equal (@List.length _)) in Ek. now rewrite !length_map in Ek.
  - intros k g g' Hg Hg'. unfold groups_of in Hg, Hg'.
    apply groupby_In in Hg, Hg'. destruct Hg as [_ ->], Hg' as [_ ->].
    now apply filter_perm.
Qed.

Lemma groupReduce_keys_order_independent_witness :
  Permutation category_sample (rev category_sample)
  /\ map fst (groupReduce category_sample [FCategoryName] [FSales])
     = map fst (groupReduce (rev category_sample) [FCategoryName] [FSales]).
Proof.
  assert (HP : Permutation category_sample (rev category_sample))
    by apply Permutation_rev.
  split; [exact HP|].
  exact (proj1 (groupReduce_keys_order_independent _ _ [FCategoryName] [FSales] HP)).
Defined.

(** ** A group is what the filter selects *)

Lemma has_key_single (f : CatField) (v : string) (r : Row) :
  has_key (row_key [f]) [v] r = cell_eq (get_cat f r) (Some v).
Proof.
  apply Bool.eq_iff_eq_true. rewrite has_key_true, cell_eq_true.
  cbn [row_key]. destruct (get_cat f r) as [x|]; split.
  - intros [= ->]. eauto.
  - intros [s [[= ->] [= ->]]]. reflexivity.
  - discriminate.
  - intros [s [E _]]. discriminate.
Qed.

Lemma groupReduce_single_In (D : Dataset) (f : CatField) (fields : list NumField)
  (k : list string) (sums : list Z) :
  In (k, sums) (groupReduce D [f] fields) <->
  exists v, k = [v]
            /\ (exists r, In r D /\ get_cat f r = Some v)
            /\ sums = agg_sum fields (filterByValue D f (Some v)).
Proof.
  unfold groupReduce. rewrite in_map_iff. split.
  - intros [[k' g] [E Hg]]. cbn [fst snd] in E. inversion E; subst k' sums.
    apply groupby_In in Hg. destruct Hg as [Hk ->].
    apply group_keys_In in Hk. destruct Hk as [r [Hr Hkey]].
    cbn [row_key] in Hkey. destruct (get_cat f r) as [v|] eqn:Ev; [|discriminate].
    injection Hkey as <-. exists v. split; [reflexivity|]. split; [eauto|].
    f_equal. rewrite filterByValue_filter. apply filter_ext.
    intros r'. apply has_key_single.
  - intros [v [-> [[r [Hr Ev]] ->]]].
    exists ([v], filter (has_key (row_key [f]) [v]) D). cbn [fst snd]. split.
    + f_equal. f_equal. rewrite filterByValue_filter. apply filter_ext.
      intros r'. apply has_key_single.
    + apply groupby_In. split; [|reflexivity].
      apply group_keys_In. exists r. split; [assumption|].
      cbn [row_key]. now rewrite Ev.
Qed.

(** X11. Grouping by one field agrees with filtering by its values: a row
    of [groupReduce] by a single field [f] is the value [v] of some row of the
    Dataset together with, for each summed field, the sum over the rows that
    [filterByValue] selects for [f] and [v]; every value that occurs has such
    a row. *)
Theorem groupReduce_row_is_sum_over_filter
  (D : Dataset) (f : CatField) (fields : list NumField) :
  (forall k sums, In (k, sums) (groupReduce D [f] fields) ->
     exists v, k = [v]
               /\ (exists r, In r D /\ get_cat f r = Some v)
               /\ sums = map (fun n => Series_sum
                                         (column_num n (filterByValue D f (Some v))))
                             fields)
  /\ (forall r v, In r D -> get_cat f r = Some v ->
        In ([v], map (fun n => Series_sum
                                 (column_num n (filterByValue D f (Some v))))
                     fields)
           (groupReduce D [f] fields)).
Proof.
  split.
  - intros k sums Hin. now apply groupReduce_single_In in Hin.
  - intros r v Hr Ev. apply groupReduce_single_In. exists v.
    split; [reflexivity|]. split; [eauto|reflexivity].
Qed.

(** ** The top-10 chart *)

Section TopProducts.
Variable argsort : ArgSort GroupRow.

(** numpy's [argsort], whatever the kind, rearranges the rows. *)
Hypothesis argsort_rearranges : forall f l, Permutation (argsort f l) l.

Lemma top_perm_split (f : GroupRow -> Z) (n : nat) (R : AggregationResult) :
  Permutation (topN argsort f n R ++ skipn n (sort_values_desc argsort f R)) R.
Proof.
  unfold topN, head. rewrite firstn_skipn. unfold sort_values_desc.
  rewrite <- Permutation_rev, argsort_rearranges.
  apply Permutation_sym, Permutation_rev.
Qed.

(** X12. The top-10 chart of the Product Analysis tab shows
    min(10, number of products) bars, each for a different product of the
    Dataset and with the total sales of the rows of that product; when there
    are at most 10 products it shows all of them. This holds whatever the
    kind of the sort. *)
Theorem top_products_are_distinct_products_with_their_totals (s : App) :
  let D := df_rows (app_df s) in
  let products := groupReduce D [FProductName] [FSales] in
  let top := fst (tab_product argsort s) in
  List.length top = Nat.min 10 (List.length products)
  /\ NoDup (map fst top)
  /\ (forall name sums, In (name, sums) top ->
        exists p, name = [p]
                  /\ (exists r, In r D /\ Product_Name r = Some p)
                  /\ sums = [Series_sum (column_num FSales
                                           (filterByValue D FProductName (Some p)))])
  /\ ((List.length products <= 10)%nat -> Permutation top products).
Proof.
  intros D products top.
  assert (Etop : top = topN argsort sales_of 10 products)
    by apply tab_product_result.
  pose proof (top_perm_split sales_of 10 products) as Hsplit.
  rewrite <- Etop in Hsplit.
  split; [|split; [|split]].
  - rewrite Etop. unfold topN, head. rewrite length_firstn. f_equal.
    apply Permutation_length. unfold sort_values_desc.
    rewrite <- Permutation_rev, argsort_rearranges.
    apply Permutation_sym, Permutation_rev.
  - assert (Hnd : NoDup (map fst products)).
    { unfold products. rewrite groupReduce_keys. unfold groups_of.
      rewrite groupby_keys. apply group_keys_NoDup. }
    apply (Permutation_map fst) in Hsplit. rewrite map_app in Hsplit.
    apply (Permutation_NoDup (Permutation_sym Hsplit)) in Hnd.
    now apply NoDup_app_remove_r in Hnd.
  - intros name sums Hin.
    assert (Hp : In (name, sums) products).
    { apply (Permutation_in _ Hsplit). apply in_or_app. now left. }
    unfold products in Hp. apply groupReduce_single_In in Hp.
    destruct Hp as [p [-> [Hr ->]]]. exists p. repeat split; assumption.
  - intros Hlen. rewrite Etop. unfold topN, head.
    rewrite firstn_all2.
    + unfold sort_values_desc. rewrite <- Permutation_rev, argsort_rearranges.
      apply Permutation_sym, Permutation_rev.
    + rewrite (Permutation_length (l' := products)); [assumption|].
      unfold sort_values_desc. rewrite <- Permutation_rev, argsort_rearranges.
      apply Permutation_sym, Permutation_rev.
Qed.
End TopProducts.

Lemma top_products_witness :
  List.length (fst (tab_product argsort_stable (mkApp (read_csv category_sample) [])))
  = 3%nat
  /\ NoDup (map fst (fst (tab_product argsort_stable
                            (mkApp (read_csv category_sample) [])))).
Proof.
  pose proof (top_products_are_distinct_products_with_their_totals
                argsort_stable argsort_stable_perm
                (mkApp (read_csv category_sample) [])) as T.
  destruct T as (T1 & T2 & _). split; [exact T1|exact T2].
Defined.

(** ** What is in a month bucket *)

Lemma in_combine_nth_error {A B : Type} (l1 : list A) (l2 : list B) (a : A) (b : B) :
  In (a, b) (combine l1 l2) <->
  exists i, nth_error l1 i = Some a /\ nth_error l2 i = Some b.
Proof.
  revert l2. induction l1 as [|x l1 IH]; intros [|y l2]; simpl.
  - split; [tauto|]. intros [[|i] [H1 _]]; discriminate.
  - split; [tauto|]. intros [[|i] [H1 _]]; discriminate.
  - split; [tauto|]. intros [[|i] [_ H2]]; discriminate.
  - rewrite IH. split.
    + intros [E|[i Hi]]; [exists O; inversion E; now split|now exists (S i)].
    + intros [[|i] [H1 H2]]; simpl in *; [left; congruence|right; eauto].
Qed.

Lemma keyed_filter_boolean_index {K R : Type} (q : option K -> bool)
  (ks : list (option K)) (rows : list R) :
  map snd (filter (fun x => q (fst x)) (combine ks rows))
  = boolean_index (map q ks) rows.
Proof.
  revert rows. induction ks as [|k ks IH]; intros [|r rows]; simpl;
    try reflexivity.
  destruct (q k); simpl; now rewrite IH.
Qed.

Lemma key_in_month (p : Period) (d : option Timestamp) :
  match option_map to_period_M d with
  | Some k => key_eqb k p
  | None => false
  end = in_month p d.
Proof.
  unfold in_month. destruct d as [t|]; [|reflexivity].
  cbn [option_map]. apply Bool.eq_iff_eq_true.
  now rewrite key_eqb_eq, Z.eqb_eq.
Qed.

Lemma month_group_rows (dates : list (option Timestamp)) (D : Dataset) (p : Period) :
  map snd (filter (has_key fst p) (combine (dt_to_period_M dates) D))
  = boolean_index (map (in_month p) dates) D.
Proof.
  unfold dt_to_period_M.
  rewrite (filter_ext _ (fun x => match fst x with
                                  | Some k => key_eqb k p
                                  | None => false
                                  end)) by reflexivity.
  rewrite (keyed_filter_boolean_index
             (fun k => match k with Some k' => key_eqb k' p | None => false end)).
  rewrite map_map. f_equal. apply map_ext. intros d. apply key_in_month.
Qed.

(** X13. The month buckets are the months of the readable dates: a
    timestamp labels a bucket of [monthlyAggregate] exactly when it is the
    first instant of the month of the date of some row; and the sums of a
    bucket are, for each summed field, the sum over the rows whose date falls
    in that month. *)
Theorem month_buckets_are_the_months_of_the_dates
  (dates : list (option Timestamp)) (D : Dataset) (fields : list NumField) :
  (forall label,
     In label (map fst (monthlyAggregate dates D fields)) <->
     exists i t r, nth_error dates i = Some (Some t) /\ nth_error D i = Some r
                   /\ label = to_timestamp (to_period_M t))
  /\ (forall label sums,
        In (label, sums) (monthlyAggregate dates D fields) ->
        sums = map (fun f => Series_sum
                      (column_num f
                         (boolean_index (map (in_month (to_period_M label)) dates) D)))
                   fields).
Proof.
  split.
  - intros label. rewrite month_groups_keys, in_map_iff.
    unfold month_groups. rewrite groupby_keys. split.
    + intros [p [<- Hp]]. apply group_keys_In in Hp.
      destruct Hp as [[k r] [Hin Hk]]. cbn [fst] in Hk. subst k.
      apply in_combine_nth_error in Hin. destruct Hin as [i [Hd Hr]].
      unfold dt_to_period_M in Hd. rewrite nth_error_map in Hd.
      destruct (nth_error dates i) as [[t|]|] eqn:Et; try discriminate.
      injection Hd as <-. exists i, t, r. auto.
    + intros [i [t [r [Hd [Hr ->]]]]]. exists (to_period_M t).
      split; [reflexivity|]. apply group_keys_In.
      exists (Some (to_period_M t), r). split; [|reflexivity].
      apply in_combine_nth_error. exists i. split; [|assumption].
      unfold dt_to_period_M. now rewrite nth_error_map, Hd.
  - intros label sums Hin. unfold monthlyAggregate in Hin.
    apply in_map_iff in Hin. destruct Hin as [[p g] [E Hg]].
    cbn [fst snd] in E. inversion E; subst label sums.
    rewrite to_period_to_timestamp.
    unfold month_groups in Hg. apply groupby_In in Hg. destruct Hg as [_ ->].
    now rewrite month_group_rows.
Qed.

(** ** C7: dates that cannot be read *)

Lemma monthlyAggregate_In (dates : list (option Timestamp)) (D : Dataset)
  (fields : list NumField) (label : Timestamp) (sums : list Z) :
  In (label, sums) (monthlyAggregate dates D fields) <->
  exists i t r,
    nth_error dates i = Some (Some t) /\ nth_error D i = Some r
    /\ label = to_timestamp (to_period_M t)
    /\ sums = agg_sum fields
                 (boolean_index (map (in_month (to_period_M t)) dates) D).
Proof.
  unfold monthlyAggregate, month_groups. rewrite in_map_iff. split.
  - intros [[p g] [E Hg]]. cbn [fst snd] in E. inversion E; subst label sums.
    apply groupby_In in Hg. destruct Hg as [Hp ->].
    apply group_keys_In in Hp. destruct Hp as [[k r] [Hin Hk]].
    cbn [fst] in Hk. subst k.
    apply in_combine_nth_error in Hin. destruct Hin as [i [Hd Hr]].
    unfold dt_to_period_M in Hd. rewrite nth_error_map in Hd.
    destruct (nth_error dates i) as [[t|]|] eqn:Et; try discriminate.
    injection Hd as <-. exists i, t, r.
    repeat split; try assumption. now rewrite month_group_rows.
  - intros [i [t [r [Hd [Hr [-> ->]]]]]].
    exists (to_period_M t,
            filter (has_key fst (to_period_M t)) (combine (dt_to_period_M dates) D)).
    cbn [fst snd]. split; [now rewrite month_group_rows|].
    apply groupby_In. split; [|reflexivity]. apply group_keys_In.
    exists (Some (to_period_M t), r). split; [|reflexivity].
    apply in_combine_nth_error. exists i. split; [|assumption].
    unfold dt_to_period_M. now rewrite nth_error_map, Hd.
Qed.

Lemma monthlyAggregate_rows (dates : list (option Timestamp)) (D : Dataset)
  (fields : list NumField) :
  Permutation
    (List.concat
       (map (fun b => boolean_index (map (in_month (to_period_M (fst b))) dates) D)
            (monthlyAggregate dates D fields)))
    (boolean_index (map is_some dates) D).
Proof.
  rewrite <- (month_groups_partition dates D).
  unfold monthlyAggregate. rewrite map_map. cbn [fst].
  erewrite map_ext_in; [reflexivity|].
  intros [p g] Hg. cbn [fst snd]. rewrite to_period_to_timestamp.
  unfold month_groups in Hg. apply groupby_In in Hg. destruct Hg as [_ ->].
  symmetry. apply month_group_rows.
Qed.

(** C7. For every way of reading dates and every Dataset: converting the
    date column does not fail and yields one cell per row, NaT where the
    text is missing or cannot be read, and the Sales & Profit tab keeps every
    row of the Dataset. The table the tab draws is [monthlyAggregate] of the
    converted dates; it has a bucket exactly for the months of the rows whose
    date is not NaT, each bucket holds the sums over the rows of its month,
    and the rows summed in the buckets are the rows whose date is not NaT,
    each once: exactly the rows with a date that cannot be read are left
    out. *)
Theorem unreadable_dates_become_nat_and_are_excluded
  (P : DateParser) (D : Dataset) (page : list Element) :
  let dates := to_datetime_coerce P (map order_date_DateOrders D) in
  let fields := [FSales; FOrderProfitPerOrder] in
  let after := tab_sales P (mkApp (read_csv D) page) in
  List.length dates = List.length D
  /\ (forall i c, nth_error (map order_date_DateOrders D) i = Some c ->
        nth_error dates i
        = Some (match c with
                | Some text => cell_parser P (map order_date_DateOrders D) text
                | None => None
                end))
  /\ df_rows (app_df (snd after)) = D
  /\ df_order_date (app_df (snd after)) = Some dates
  /\ fst after = monthlyAggregate dates D fields
  /\ (forall label sums,
        In (label, sums) (fst after) <->
        exists i t r,
          nth_error dates i = Some (Some t) /\ nth_error D i = Some r
          /\ label = to_timestamp (to_period_M t)
          /\ sums = agg_sum fields
                       (boolean_index (map (in_month (to_period_M t)) dates) D))
  /\ Permutation
       (List.concat
          (map (fun b => boolean_index (map (in_month (to_period_M (fst b))) dates) D)
               (fst after)))
       (boolean_index (map is_some dates) D)
  /\ (forall i r, nth_error dates i = Some None -> nth_error D i = Some r ->
        forall b, In b (fst after) ->
                  nth_error (map (in_month (to_period_M (fst b))) dates) i
                  = Some false).
Proof.
  intros dates fields after.
  assert (Etab : fst after = monthlyAggregate dates D fields) by reflexivity.
  split; [unfold dates; now rewrite to_datetime_coerce_length, length_map|].
  split.
  { intros i c Hc. unfold dates, to_datetime_coerce.
    now rewrite nth_error_map, Hc. }
  split; [reflexivity|]. split; [reflexivity|]. split; [exact Etab|].
  rewrite Etab. split; [intros label sums; apply monthlyAggregate_In|].
  split; [apply monthlyAggregate_rows|].
  intros i r Hd _ b _. now rewrite nth_error_map, Hd.
Qed.

(** ** Periods and timestamps *)

(** X14. Converting between months and timestamps loses only the position
    within the month: the timestamp of a period is the first instant of a
    calendar month and converts back to the period; and a timestamp with a
    calendar month number converts to the period whose timestamp is the first
    instant of the same month of the same year. Earlier timestamps never get
    a later period. *)
Theorem period_timestamp_round_trip (t : Timestamp) (Hm : valid_month t) :
  to_timestamp (to_period_M t) = mkTimestamp (ts_year t) (ts_month t) 1 0 0 0
  /\ (forall p, to_period_M (to_timestamp p) = p /\ valid_month (to_timestamp p))
  /\ (forall u, valid_month u -> ts_lt t u -> to_period_M t <= to_period_M u).
Proof.
  unfold valid_month in *. split; [|split].
  - unfold to_timestamp, to_period_M.
    assert (E : (ts_year t - 1970) * 12 + (ts_month t - 1)
                = (ts_month t - 1) + (ts_year t - 1970) * 12) by lia.
    rewrite E, Z.div_add, Z.mod_add by lia.
    rewrite Z.div_small, Z.mod_small by lia. f_equal; lia.
  - intros p. split; [apply to_period_to_timestamp|].
    unfold to_timestamp. cbn [ts_month].
    pose proof (Z.mod_pos_bound p 12 ltac:(lia)). lia.
  - intros u Hu Hlt. unfold ts_lt, ts_fields in Hlt. cbn [list_cmp] in Hlt.
    unfold to_period_M.
    destruct (Z.compare_spec (ts_year t) (ts_year u)) as [Ey|Ey|Ey];
      [|lia|discriminate].
    destruct (Z.compare_spec (ts_month t) (ts_month u)) as [Em|Em|Em];
      [lia|lia|discriminate].
Qed.

Lemma period_timestamp_round_trip_witness :
  valid_month (mkTimestamp 2015 2 14 9 30 0)
  /\ to_timestamp (to_period_M (mkTimestamp 2015 2 14 9 30 0))
     = mkTimestamp 2015 2 1 0 0 0.
Proof.
  assert (Hm : valid_month (mkTimestamp 2015 2 14 9 30 0))
    by (unfold valid_month; simpl; lia).
  split; [exact Hm|].
  exact (proj1 (period_timestamp_round_trip _ Hm)).
Defined.

(** ** The filtered Dataset has one shipping mode *)

Lemma unique_constant {A : Type} (eqb : A -> A -> bool)
  (eqb_spec : forall a b, eqb a b = true <-> a = b) (x : A) (s : list A) :
  s <> [] -> (forall c, In c s -> c = x) -> unique eqb s = [x].
Proof.
  intros Hne Hs. destruct s as [|y t]; [congruence|].
  rewrite (unique_cons eqb eqb_spec).
  rewrite (Hs y (or_introl eq_refl)). f_equal.
  assert (Hall : forall c, In c (unique eqb t) -> c = x).
  { intros c Hc. apply Hs. right.
    exact (proj1 (unique_In eqb eqb_spec t c) Hc). }
  induction (unique eqb t) as [|c u IH]; [reflexivity|]. cbn [filter].
  rewrite (Hall c (or_introl eq_refl)).
  rewrite (proj2 (eqb_spec x x) eq_refl). cbn [negb].
  apply IH. intros d Hd. apply Hall. now right.
Qed.

(** X15. Whatever option the user picks, the Dataset drawn by the two box
    plots of the Shipping & Delivery tab has a single shipping mode: when the
    value picked is a present one, it is the only value of the Shipping Mode
    column of the filtered Dataset, and filtering that Dataset again offers
    just this option. *)
Theorem filtered_dataset_has_one_shipping_mode
  (D : Dataset) (index : nat) (page : list Element) (v : string)
  (Hpick : nth_error (Series_unique (column_cat FShippingMode D)) index
           = Some (Some v)) :
  let filtered := df_rows (fst (tab_shipping index (mkApp (read_csv D) page))) in
  (forall r, In r filtered -> Shipping_Mode r = Some v)
  /\ Series_unique (column_cat FShippingMode filtered) = [Some v].
Proof.
  intros filtered.
  assert (E : filtered = filterByValue D FShippingMode (Some v)).
  { unfold filtered. rewrite tab_shipping_result. simpl. now rewrite Hpick. }
  assert (Hall : forall r, In r filtered -> Shipping_Mode r = Some v).
  { intros r Hr. rewrite E, filterByValue_filter in Hr.
    apply filter_In in Hr. destruct Hr as [_ Hr]. apply cell_eq_true in Hr.
    destruct Hr as [s [H1 H2]]. cbn [get_cat] in H1. congruence. }
  split; [exact Hall|].
  unfold Series_unique. apply (unique_constant _ opt_eqb_string_spec).
  - assert (Hin : In (Some v) (column_cat FShippingMode D)).
    { apply nth_error_In in Hpick. unfold Series_unique in Hpick.
      exact (proj1 (unique_In _ opt_eqb_string_spec _ _) Hpick). }
    pose proof (filterByValue_nonempty D FShippingMode v Hin) as Hne.
    rewrite <- E in Hne. unfold column_cat.
    destruct filtered; [congruence|discriminate].
  - intros c Hc. unfold column_cat in Hc. apply in_map_iff in Hc.
    destruct Hc as [r [<- Hr]]. cbn [get_cat]. now apply Hall.
Qed.

Lemma filtered_dataset_has_one_shipping_mode_witness :
  nth_error (Series_unique (column_cat FShippingMode category_sample)) 1
  = Some (Some "Same Day"%string)
  /\ Series_unique
       (column_cat FShippingMode
          (df_rows (fst (tab_shipping 1 (mkApp (read_csv category_sample) [])))))
     = [Some "Same Day"%string].
Proof.
  assert (Hpick : nth_error (Series_unique (column_cat FShippingMode category_sample)) 1
                  = Some (Some "Same Day"%string)) by reflexivity.
  split; [exact Hpick|].
  exact (proj2 (filtered_dataset_has_one_shipping_mode category_sample 1 []
                  "Same Day"%string Hpick)).
Defined.
